(** * Adeft candidate-mining trie: a shallow embedding of [adeft/discover.py]

    The development follows the Python module top to bottom: the trie node
    ([_TrieNode]), the loader ([load_trie]), the miner ([AdeftMiner]) with its
    ingestion ([_add], [process_texts]), score propagation
    ([_propagate_scores]), candidate extraction ([get_longforms]), merge
    ([update], [compose]) and serialization ([to_dict],
    [load_adeft_miner_from_dict]).

    Conventions.
    - A Python number is an [int], held as a [Z], or a [float], held as a
      binary64 value of the standard library's [SpecFloat]; arithmetic on two
      [int]s is exact, any other arithmetic rounds to binary64, and [/] on two
      [int]s is the correctly rounded quotient.  Where Python raises
      [OverflowError] (an [int] too large for a [float]) or
      [ZeroDivisionError], and the run ends, the functions here go on with
      the infinity or the NaN that IEEE arithmetic gives.  Numbers are
      compared by value, as Python compares an [int] with a [float].
    - A Python [dict] is an association list in insertion order: assigning to
      a present key keeps its position, assigning to a new key appends.
    - A node is addressed by the path of tokens leading to it from the root;
      the root is the node at the empty path, and [is_root] (Python:
      [parent is None]) is threaded as a boolean. *)

From Stdlib Require Import ZArith QArith Qminmax List String Ascii Bool Lia Permutation.
From Stdlib Require Import SpecFloat.
Import ListNotations.
Open Scope Z_scope.

Set Implicit Arguments.

(** ** Dictionaries in insertion order *)

Module Dict.
Section WithKey.
Variables K V : Type.
Variable K_eq_dec : forall a b : K, {a = b} + {a <> b}.

Fixpoint get (d : list (K * V)) (k : K) : option V :=
    match d with
    | [] => None
    | (k', v) :: d' => if K_eq_dec k k' then Some v else get d' k
    end.

Definition mem (d : list (K * V)) (k : K) : bool :=
    match get d k with Some _ => true | None => false end.

  (** [d[k] = v] *)
Fixpoint set (d : list (K * V)) (k : K) (v : V) : list (K * V) :=
    match d with
    | [] => [(k, v)]
    | (k', v') :: d' =>
        if K_eq_dec k k' then (k', v) :: d' else (k', v') :: set d' k v
    end.

Definition keys (d : list (K * V)) : list K := map fst d.
Definition values (d : list (K * V)) : list V := map snd d.

End WithKey.
End Dict.

(** ** Python numbers *)

(** Binary64: 53 bits of precision, infinities at exponent 1024. *)
Definition float : Type := spec_float.

Definition float_add : float -> float -> float := SFadd 53 1024.
Definition float_sub : float -> float -> float := SFsub 53 1024.
Definition float_mul : float -> float -> float := SFmul 53 1024.
Definition float_div : float -> float -> float := SFdiv 53 1024.

(** [float(z)]: the nearest binary64, ties to even. *)
Definition float_of_int (z : Z) : float := binary_normalize 53 1024 z 0 false.

(** An integer as an unrounded operand of the division. *)
Definition exact_int (z : Z) : float :=
  match z with
  | Z0 => S754_zero false
  | Zpos p => S754_finite false p 0
  | Zneg p => S754_finite true p 0
  end.

Inductive number : Type :=
| Int (z : Z)
| Float (f : float).

Definition to_float (a : number) : float :=
  match a with
  | Int z => float_of_int z
  | Float f => f
  end.

(** [a + b], [a - b], [a * b], [-a] *)
Definition num_add (a b : number) : number :=
  match a, b with
  | Int x, Int y => Int (x + y)
  | _, _ => Float (float_add (to_float a) (to_float b))
  end.

Definition num_sub (a b : number) : number :=
  match a, b with
  | Int x, Int y => Int (x - y)
  | _, _ => Float (float_sub (to_float a) (to_float b))
  end.

Definition num_mul (a b : number) : number :=
  match a, b with
  | Int x, Int y => Int (x * y)
  | _, _ => Float (float_mul (to_float a) (to_float b))
  end.

Definition num_neg (a : number) : number :=
  match a with
  | Int x => Int (- x)
  | Float f => Float (SFopp f)
  end.

(** [a / b]: on two [int]s the quotient of the integers themselves, rounded
    once. *)
Definition num_div (a b : number) : number :=
  match a, b with
  | Int x, Int y => Float (float_div (exact_int x) (exact_int y))
  | _, _ => Float (float_div (to_float a) (to_float b))
  end.

(** The value of a number: a rational, an infinity, or none (NaN).  Python
    compares numbers, also an [int] with a [float], by their values. *)
Inductive value : Type :=
| NotANumber
| MinusInfinity
| Finite (q : Q)
| PlusInfinity.

Definition power_of_two (e : Z) : Q :=
  match e with
  | Z0 => 1
  | Zpos p => inject_Z (2 ^ Zpos p)
  | Zneg p => 1 # (2 ^ p)
  end.

Definition float_value (f : float) : value :=
  match f with
  | S754_zero _ => Finite 0
  | S754_infinity false => PlusInfinity
  | S754_infinity true => MinusInfinity
  | S754_nan => NotANumber
  | S754_finite false m e => Finite (inject_Z (Zpos m) * power_of_two e)
  | S754_finite true m e => Finite (inject_Z (Zneg m) * power_of_two e)
  end.

Definition num_value (a : number) : value :=
  match a with
  | Int z => Finite (inject_Z z)
  | Float f => float_value f
  end.

Definition Qltb (a b : Q) : bool := negb (Qle_bool b a).

Definition value_ltb (a b : value) : bool :=
  match a, b with
  | NotANumber, _ | _, NotANumber => false
  | MinusInfinity, MinusInfinity => false
  | MinusInfinity, _ => true
  | _, MinusInfinity => false
  | PlusInfinity, _ => false
  | _, PlusInfinity => true
  | Finite x, Finite y => Qltb x y
  end.

Definition value_eqb (a b : value) : bool :=
  match a, b with
  | MinusInfinity, MinusInfinity => true
  | PlusInfinity, PlusInfinity => true
  | Finite x, Finite y => Qeq_bool x y
  | _, _ => false
  end.

(** [a < b], [a > b], [a == b], [a <= b] *)
Definition num_ltb (a b : number) : bool :=
  value_ltb (num_value a) (num_value b).

Definition num_gtb (a b : number) : bool := num_ltb b a.

Definition num_eqb (a b : number) : bool :=
  value_eqb (num_value a) (num_value b).

Definition num_leb (a b : number) : bool := num_ltb a b || num_eqb a b.

Definition is_nan (a : number) : bool :=
  match num_value a with
  | NotANumber => true
  | _ => false
  end.

(** [max(a, b)]: the first of the two unless the second is greater. *)
Definition num_max (a b : number) : number :=
  if num_gtb b a then b else a.

Definition token := string.

Definition tokens_eq_dec : forall a b : list token, {a = b} + {a <> b} :=
  list_eq_dec string_dec.

(** ** [_TrieNode] *)

(** The slots of [_TrieNode] that the mining core reads.  [stats_set] records
    whether the slots [count], [sum_ft], [sum_ft2] have been assigned:
    [__init__] assigns them only when [longform] is non-empty, so they are
    unset on the root and reading one raises [AttributeError].  The slot
    [parent] of a node is the node above it, or [None] at the root, except
    for a node that [update] has taken over from the copy of another trie:
    its [parent] stays the node it had in that copy, which is no node of
    this trie.  [parent_elsewhere] marks those nodes. *)
Inductive node : Type := Node {
  longform : list token;
  stats_set : bool;
  count : Z;
  sum_ft : Z;
  sum_ft2 : Z;
  score : number;
  children : list (token * node);
  alignment_score : number;
  best_ancestor_score : number;
  best_descendent_score : number;
  parent_elsewhere : bool
}.

(** [_TrieNode.__init__(longform, parent, shortform)] *)
Definition new_node (lf : list token) : node :=
  match lf with
  | [] => Node [] false 0 0 0 (Int (-1)) [] (Int 0) (Int (-1)) (Int (-1)) false
  | _ => Node lf true 1 0 0 (Int 1) [] (Int 0) (Int (-1)) (Int (-1)) false
  end.

Definition set_children (n : node) (cs : list (token * node)) : node :=
  Node (longform n) (stats_set n) (count n) (sum_ft n) (sum_ft2 n) (score n)
       cs (alignment_score n) (best_ancestor_score n) (best_descendent_score n)
       (parent_elsewhere n).

Definition child (n : node) (t : token) : option node :=
  Dict.get string_dec (children n) t.

(** [children[t] = c] *)
Definition set_child (n : node) (t : token) (c : node) : node :=
  set_children n (Dict.set string_dec (children n) t c).

(** [_TrieNode.increment_count(increment)] *)
Definition increment_count (n : node) (increment : Z) : node :=
  Node (longform n) (stats_set n) (count n + increment) (sum_ft n) (sum_ft2 n)
       (num_add (score n) (Int increment))
       (children n) (alignment_score n) (best_ancestor_score n)
       (best_descendent_score n) (parent_elsewhere n).

(** A node of the copy of another trie, once it has been put among the
    children of a node of this one: its [parent] is still the node of the
    copy. *)
Definition graft (n : node) : node :=
  Node (longform n) (stats_set n) (count n) (sum_ft n) (sum_ft2 n) (score n)
       (children n) (alignment_score n) (best_ancestor_score n)
       (best_descendent_score n) true.

(** [sum_ft2/sum_ft] on the two integers. *)
Definition ratio (s2 s : Z) : number := num_div (Int s2) (Int s).

(** [_TrieNode.update_likelihood(count, increment)].  The first statement
    adds the [int] [0] when [sum_ft] is zero, so a score that is still an
    [int] stays one until the last statement, which subtracts a [float].
    That statement divides by the new [sum_ft]; Python raises
    [ZeroDivisionError] when it is zero, which [update_likelihood_divisor]
    below excludes for positive increments on a node whose [sum_ft] is not
    negative. *)
Definition update_likelihood (n : node) (cnt increment : Z) : node :=
  let score1 :=
    num_add (score n)
      (if sum_ft n =? 0 then Int 0 else ratio (sum_ft2 n) (sum_ft n)) in
  let sum_ft' := sum_ft n + increment in
  let sum_ft2' := sum_ft2 n + (2 * cnt * increment - increment ^ 2) in
  let score2 := num_sub score1 (ratio sum_ft2' sum_ft') in
  Node (longform n) (stats_set n) (count n) sum_ft' sum_ft2' score2
       (children n) (alignment_score n) (best_ancestor_score n)
       (best_descendent_score n) (parent_elsewhere n).

(** ** The miner's collaborators *)

(** Modelled from the spec: [adeft.nlp.stem.WatchfulStemmer] is not among the
    sources.  The token normalizer maps a token to its stem, records which
    surface form was mapped to it, renders a stem back to its most frequent
    surface form, can be dumped and rebuilt from a dump, and its counts can
    be merged. *)
Class WatchfulStemmer (S : Type) : Type := {
  stemmer_new : S;
  stem_of : token -> token;
  watch : S -> token -> S;
  most_frequent : S -> token -> token;
  counts_update : S -> S -> S;
  stemmer_dump : S -> S;
  stemmer_load : S -> S
}.

(** [self._stemmer.stem(token) for token in tokens]: the stems, and the
    stemmer after it has seen every token. *)
Fixpoint stem_all {S} `{WatchfulStemmer S} (st : S) (tokens : list token)
  : list token * S :=
  match tokens with
  | [] => ([], st)
  | t :: ts =>
      let '(out, st') := stem_all (watch st t) ts in
      (stem_of t :: out, st')
  end.

(** Modelled from the spec: [adeft.util.get_candidate_fragments] and
    [adeft.util.get_candidate] are not among the sources.  The candidate
    extractor returns, for a text, the text fragments that precede each
    occurrence of the shortform, and tokenizes a fragment. *)
Class CandidateExtractor : Type := {
  get_candidate_fragments : string -> string -> Z -> list string;
  get_candidate : string -> list token
}.

(** ** [AdeftMiner] *)

Definition candidates := list (list token * number).

Record AdeftMiner (S : Type) : Type := Miner {
  shortform : string;
  _internal_trie : node;
  _longforms : candidates;
  _stemmer : S;
  window : Z;
  _alignment_scores_computed : bool;
  _scores_propagated : bool
}.

Arguments Miner {S}.

Definition lf_set (d : candidates) (k : list token) (v : number) : candidates :=
  Dict.set tokens_eq_dec d k v.

Definition lf_get (d : candidates) (k : list token) : option number :=
  Dict.get tokens_eq_dec d k.

(** [AdeftMiner.__init__(shortform, window)] *)
Definition new_miner {S} `{WatchfulStemmer S} (sf : string) (w : Z)
  : AdeftMiner S :=
  Miner sf (new_node []) [] stemmer_new w false false.

(** The loop of [AdeftMiner._add], started at [current] with the tokens still
    to be consumed.  [is_root] is [current.is_root()].  The node returned is
    [current] after the loop has mutated it and its descendants. *)
Fixpoint _add_walk (is_root : bool) (current : node) (tokens : list token)
    (lfs : candidates) : node * candidates :=
  match tokens with
  | [] => (current, lfs)
  | tok :: rest =>
      match child current tok with
      | None =>
          let new := new_node (longform current ++ [tok]) in
          let current1 :=
            if is_root then current else update_likelihood current 1 1 in
          let lfs1 :=
            if is_root then lfs
            else lf_set lfs (rev (longform current1)) (score current1) in
          let lfs2 := lf_set lfs1 (rev (longform new)) (score new) in
          let '(new', lfs3) := _add_walk false new rest lfs2 in
          (set_child current1 tok new', lfs3)
      | Some c =>
          let c1 := increment_count c 1 in
          let lfs1 := lf_set lfs (rev (longform c1)) (score c1) in
          let current1 :=
            if is_root then current
            else update_likelihood current (count c1) 1 in
          let lfs2 :=
            if is_root then lfs1
            else lf_set lfs1 (rev (longform current1)) (score current1) in
          let '(c2, lfs3) := _add_walk false c1 rest lfs2 in
          (set_child current1 tok c2, lfs3)
      end
  end.

(** [AdeftMiner._add(tokens)] *)
Definition _add {S} `{WatchfulStemmer S} (m : AdeftMiner S)
    (tokens : list token) : AdeftMiner S :=
  let '(stems, st) := stem_all (_stemmer m) tokens in
  let '(root, lfs) :=
    _add_walk true (_internal_trie m) (rev stems) (_longforms m) in
  Miner (shortform m) root lfs st (window m)
        (_alignment_scores_computed m) (_scores_propagated m).

Definition is_empty_string (s : string) : bool :=
  match s with EmptyString => true | _ => false end.

(** The inner loop of [process_texts]: one [_add] per non-empty fragment. *)
Fixpoint add_fragments {S} `{WatchfulStemmer S} `{CandidateExtractor}
    (m : AdeftMiner S) (fragments : list string) : AdeftMiner S :=
  match fragments with
  | [] => m
  | f :: fs =>
      add_fragments
        (if is_empty_string f then m else _add m (get_candidate f)) fs
  end.

Fixpoint process_each {S} `{WatchfulStemmer S} `{CandidateExtractor}
    (m : AdeftMiner S) (texts : list string) : AdeftMiner S :=
  match texts with
  | [] => m
  | text :: ts =>
      process_each
        (add_fragments m
           (get_candidate_fragments text (shortform m) (window m))) ts
  end.

(** [AdeftMiner.process_texts(texts)] *)
Definition process_texts {S} `{WatchfulStemmer S} `{CandidateExtractor}
    (m : AdeftMiner S) (texts : list string) : AdeftMiner S :=
  let m' := process_each m texts in
  Miner (shortform m') (_internal_trie m') (_longforms m') (_stemmer m')
        (window m') false false.

(** ** Predicates on tries *)

(** [P] holds of a node and of all of its descendants. *)
Inductive ForallNodes (P : node -> Prop) : node -> Prop :=
| ForallNodes_intro n :
    P n ->
    (forall t c, In (t, c) (children n) -> ForallNodes P c) ->
    ForallNodes P n.

(** [P] holds of every non-root node of the trie rooted at [root]. *)
Definition ForallNonRoot (P : node -> Prop) (root : node) : Prop :=
  forall t c, In (t, c) (children root) -> ForallNodes P c.

(** Brute-force recomputation from the children. *)
Definition total (f : node -> Z) (cs : list (token * node)) : Z :=
  fold_right (fun tc acc => f (snd tc) + acc) 0 cs.

Definition sum_counts (cs : list (token * node)) : Z := total count cs.

Definition sum_squares (cs : list (token * node)) : Z :=
  total (fun c => count c ^ 2) cs.

(** What the formula [count - sum_ft2/sum_ft] gives from the node's own
    fields in exact arithmetic, and what it gives in Python's. *)
Definition likelihood (n : node) : Q :=
  if sum_ft n =? 0 then inject_Z (count n)
  else (inject_Z (count n) - inject_Z (sum_ft2 n) / inject_Z (sum_ft n))%Q.


(** The integer statistics of a node agree with its children, and the score
    of a node that never had [update_likelihood] change it is its count. *)
Record consistent (n : node) : Prop := {
  cons_set : stats_set n = true;
  cons_count : 1 <= count n;
  cons_sum_ft : sum_ft n = sum_counts (children n);
  cons_sum_ft2 : sum_ft2 n = sum_squares (children n);
  cons_leaf : sum_ft n = 0 -> score n = Int (count n)
}.

(** The integer statistics agree with the children at a node and at every
    node below it. *)
Definition wf_node (n : node) : Prop := ForallNodes consistent n.

(** ** Merging two miners *)

(** The node reached from [n] along the tokens of [p]. *)
Fixpoint get_at (n : node) (p : list token) : option node :=
  match p with
  | [] => Some n
  | t :: p' =>
      match child n t with
      | Some c => get_at c p'
      | None => None
      end
  end.

(** The trie [n] after the node at [p] has been mutated into [x]. *)
Fixpoint put_at (n : node) (p : list token) (x : node) : node :=
  match p with
  | [] => x
  | t :: p' =>
      match child n t with
      | Some c => set_child n t (put_at c p' x)
      | None => n
      end
  end.

Definition is_nil {A} (l : list A) : bool :=
  match l with [] => true | _ => false end.


(** The work list of [update]: pairs of a node of the receiving trie
    (Python: [left], here [lnode]), given by its path, and a node of the copy
    of the other trie (Python: [right], here [rnode]).  [pop] takes the head,
    [appendleft] adds at the end. *)
Definition worklist := list (list token * node).

(** The [for] loop of [update] over the children of [right] still to be
    visited, for the node [left] found at path [p]. *)
Fixpoint merge_children (p : list token) (lnode : node)
    (rchildren : list (token * node)) (lfs : candidates) (queue : worklist)
  : node * candidates * worklist :=
  match rchildren with
  | [] => (lnode, lfs, queue)
  | (tok, ch) :: rest =>
      match child lnode tok with
      | None =>
          let left1 := set_child lnode tok (graft ch) in
          let left2 :=
            if is_nil p then left1
            else update_likelihood left1 (count ch) (count ch) in
          let lfs1 :=
            if is_nil p then lfs
            else lf_set lfs (rev (longform left2)) (score left2) in
          merge_children p left2 rest lfs1 queue
      | Some current =>
          let current1 := increment_count current (count ch) in
          let lfs1 := lf_set lfs (rev (longform current1)) (score current1) in
          let left1 := set_child lnode tok current1 in
          let left2 :=
            if is_nil p then left1
            else update_likelihood left1 (count current1) (count ch) in
          let lfs2 :=
            if is_nil p then lfs1
            else lf_set lfs1 (rev (longform left2)) (score left2) in
          merge_children p left2 rest lfs2 (queue ++ [(p ++ [tok], ch)])
      end
  end.

(** The [while] loop of [update].  Each turn pops one pair; [fuel] bounds the
    number of turns. *)
Fixpoint update_loop (fuel : nat) (root : node) (lfs : candidates)
    (queue : worklist) : node * candidates * worklist :=
  match fuel with
  | O => (root, lfs, queue)
  | S fuel' =>
      match queue with
      | [] => (root, lfs, [])
      | (p, rnode) :: queue' =>
          match get_at root p with
          | None => (root, lfs, queue)
          | Some lnode =>
              let '(lnode', lfs', queue'') :=
                merge_children p lnode (children rnode) lfs queue' in
              update_loop fuel' (put_at root p lnode') lfs' queue''
          end
      end
  end.

(** The number of nodes of a trie. *)
Fixpoint node_size (n : node) : nat :=
  S ((fix go (cs : list (token * node)) : nat :=
        match cs with
        | [] => O
        | (_, c) :: cs' => (node_size c + go cs')%nat
        end) (children n)).

(** [self._longforms.update({key: value for key, value in other.items()
    if key not in self._longforms})] *)
Definition longforms_update (mine other : candidates) : candidates :=
  fold_left (fun d kv => lf_set d (fst kv) (snd kv))
    (filter (fun kv => negb (Dict.mem tokens_eq_dec mine (fst kv))) other)
    mine.

(** [AdeftMiner.update(adeft_miner)].  [deepcopy] is the identity on values.
    Every turn of the loop pops a pair whose rnode node is a node of the other
    trie, each at most once, so the size of that trie is fuel enough
    ([update_descent]). *)
Definition update {S} `{WatchfulStemmer S} (self other : AdeftMiner S)
  : AdeftMiner S :=
  let st := counts_update (_stemmer self) (_stemmer other) in
  let rnode := _internal_trie other in
  let lfs := longforms_update (_longforms self) (_longforms other) in
  let '(root, lfs', _) :=
    update_loop (node_size rnode) (_internal_trie self) lfs [([], rnode)] in
  Miner (shortform self) root lfs' st (window self)
        (_alignment_scores_computed self) (_scores_propagated self).


(** ** Reachable miners *)

(** The miners that construction, ingestion and merge can produce. *)
Inductive reachable {S} `{WatchfulStemmer S} `{CandidateExtractor}
  : AdeftMiner S -> Prop :=
| reachable_new sf w : reachable (new_miner sf w)
| reachable_process_texts m texts :
    reachable m -> reachable (process_texts m texts)
| reachable_update m other :
    reachable m -> reachable other -> reachable (update m other).

(** A stemmer that leaves tokens alone and keeps no counts, and an extractor
    that takes a text as one fragment of one token; used to run the miner on
    concrete inputs. *)
#[export] Instance plain_stemmer : WatchfulStemmer unit := {
  stemmer_new := tt;
  stem_of := fun t => t;
  watch := fun st _ => st;
  most_frequent := fun _ t => t;
  counts_update := fun st _ => st;
  stemmer_dump := fun st => st;
  stemmer_load := fun st => st
}.

(** Splits a string at single spaces. *)
Fixpoint split_spaces (acc : string) (s : string) : list string :=
  match s with
  | EmptyString => [acc]
  | String c s' =>
      if Ascii.eqb c " "%char then acc :: split_spaces EmptyString s'
      else split_spaces (acc ++ String c EmptyString)%string s'
  end.

#[export] Instance plain_extractor : CandidateExtractor := {
  get_candidate_fragments := fun text _ _ => [text];
  get_candidate := fun fragment => split_spaces EmptyString fragment
}.

(** Two miners for the same shortform, fed different texts and merged. *)
Definition two_shard_miner : AdeftMiner unit :=
  update (process_texts (new_miner "ER" 100) ["b a"; "c a"; "a"]%string)
         (process_texts (new_miner "ER" 100) ["b a"; "d"]%string).


(** A miner that has seen the candidate [b a] once; the miner merged with
    itself [k] times; and the latter, for [k = 53], merged twice more with
    the one-candidate miner. *)
Definition one_candidate_miner : AdeftMiner unit :=
  process_texts (new_miner "ER" 100) ["b a"%string].

Fixpoint self_merged (k : nat) (m : AdeftMiner unit) : AdeftMiner unit :=
  match k with
  | O => m
  | S k' => let m' := self_merged k' m in update m' m'
  end.

Definition overflow_miner : AdeftMiner unit :=
  update (update (self_merged 53 one_candidate_miner) one_candidate_miner)
         one_candidate_miner.

(** A miner whose two flags are set, as [get_longforms] leaves them. *)
Definition flags_set {S} (m : AdeftMiner S) : AdeftMiner S :=
  Miner (shortform m) (_internal_trie m) (_longforms m) (_stemmer m)
        (window m) true true.


(** ** Breadth-first traversals *)

(** [_propagate_scores], [compute_alignment_scores] and [prune] share one
    loop: a [deque] seeded with the root, [pop] at one end, [appendleft] of
    children at the other.  A queue entry is the path of a node together with
    what the loop carries along with it ([X]: nothing, a depth, the slots the
    alignment pass hands down).  [visit p x current] is what the body does to
    the node [current] popped at path [p]: the node as the body leaves it
    (its own slots and those of its children), and the children it queues,
    each by its token with what is carried.  The result holds the path of the
    last node popped (Python's [current] after the loop).  [fuel] bounds the
    number of turns. *)
Section BreadthFirst.
Variable X : Type.
Variable visit : list token -> X -> node -> node * list (token * X).

Definition queued (p : list token) (next : list (token * X))
    : list (list token * X) :=
    map (fun ty => (p ++ [fst ty], snd ty)) next.

Fixpoint bfs_loop (fuel : nat) (root : node)
      (queue : list (list token * X)) (last : list token)
    : node * list (list token * X) * list token :=
    match fuel with
    | O => (root, queue, last)
    | S fuel' =>
        match queue with
        | [] => (root, [], last)
        | (p, x) :: rest =>
            match get_at root p with
            | None => (root, queue, last)
            | Some current =>
                let '(current', next) := visit p x current in
                bfs_loop fuel' (put_at root p current')
                  (rest ++ queued p next) p
            end
        end
    end.
End BreadthFirst.

(** ** [_propagate_scores] *)

Definition set_best_ancestor_score (n : node) (x : number) : node :=
  Node (longform n) (stats_set n) (count n) (sum_ft n) (sum_ft2 n) (score n)
       (children n) (alignment_score n) x (best_descendent_score n)
       (parent_elsewhere n).

Definition set_best_descendent_score (n : node) (x : number) : node :=
  Node (longform n) (stats_set n) (count n) (sum_ft n) (sum_ft2 n) (score n)
       (children n) (alignment_score n) (best_ancestor_score n) x
       (parent_elsewhere n).

(** The [for] loop of the first pass: every child of [current] gets its
    [best_ancestor_score] and is queued. *)
Definition visit_ancestors (_ : list token) (_ : unit) (current : node)
  : node * list (token * unit) :=
  (set_children current
     (map (fun tc =>
             (fst tc,
              set_best_ancestor_score (snd tc)
                (if num_gtb (score (snd tc)) (best_ancestor_score current)
                 then score (snd tc)
                 else best_ancestor_score current)))
          (children current)),
   map (fun tc => (fst tc, tt)) (children current)).

(** The inner [while] of the second pass, climbing from the node at
    [rev rpath] ([rpath] lists the path nearest token first; the root, whose
    [parent] is [None], is the empty path).  From a node whose [parent] is a
    node of the copy of another trie the climb goes on through that copy and
    writes there only: this trie is left as it is. *)
Fixpoint ascend (root : node) (rpath : list token) : node :=
  match rpath with
  | [] => root
  | _ :: rparent =>
      match get_at root (rev rpath), get_at root (rev rparent) with
      | Some current, Some parent =>
          if parent_elsewhere current then root
          else if num_gtb (best_descendent_score current) (score parent)
                  || num_eqb (best_descendent_score parent) (Int 0)
          then
            let parent' :=
              set_best_descendent_score parent
                (if num_gtb (score parent) (best_descendent_score current)
                 then score parent
                 else best_descendent_score current) in
            ascend (put_at root (rev rparent) parent') rparent
          else root
      | _, _ => root
      end
  end.

(** [AdeftMiner._propagate_scores()] on the trie.  The block that sets
    [best_descendent_score] comes after the first loop, not inside it, so it
    runs once, for the last node that loop popped. *)
Definition _propagate_scores (root : node) : node :=
  let '(root1, _, last) :=
    bfs_loop visit_ancestors (node_size root) root [([], tt)] [] in
  match get_at root1 last with
  | None => root1
  | Some current =>
      if is_nil (children current) then
        ascend
          (put_at root1 last
             (set_best_descendent_score current (score current)))
          (rev last)
      else root1
  end.

(** The largest score among a node and all of its descendants. *)
Fixpoint best_score_below (n : node) : number :=
  (fix go (cs : list (token * node)) (acc : number) : number :=
     match cs with
     | [] => acc
     | (_, c) :: cs' => go cs' (num_max acc (best_score_below c))
     end) (children n) (score n).

(** The trie after ingesting the candidates [a] and [b]. *)
Definition two_leaf_trie : node :=
  _internal_trie
    (process_texts (new_miner (S := unit) "ER" 100) ["a"; "b"]%string).


(** ** Exceptions *)

(** Reading a slot that [__init__] never assigned raises [AttributeError];
    a root node has no [count], [sum_ft] or [sum_ft2] ([stats_set] is
    [false]). *)
Inductive exn : Type :=
| AttributeError (slot : string)
| SyntaxError (text : string).

Inductive result (A : Type) : Type :=
| Ok (a : A)
| Raise (e : exn).

Arguments Raise {A} e.

Definition bind {A B : Type} (r : result A) (k : A -> result B) : result B :=
  match r with
  | Ok a => k a
  | Raise e => Raise e
  end.

(** ** [_get_longform_helper] *)

(** A triple [(longform, score, count)]. *)
Definition entry : Type := list token * number * Z.

Definition entry_score (e : entry) : number := snd (fst e).

Section Helper.
Variable score_func : node -> result (number * Z).

  (** [[(longform, score, count)]] built from [score_func(node)]. *)
Definition own_entry (n : node) : result (list entry) :=
    bind (score_func n) (fun v => Ok [(longform n, fst v, snd v)]).

  (** The comprehension
      [[e for e in child_longforms
        if node.is_root() or score > score_func(node)[0]]]. *)
Fixpoint keep_better (is_root : bool) (n : node)
      (child_longforms : list entry) : result (list entry) :=
    match child_longforms with
    | [] => Ok []
    | e :: rest =>
        if is_root then
          bind (keep_better is_root n rest) (fun r => Ok (e :: r))
        else
          bind (score_func n) (fun v =>
          bind (keep_better is_root n rest) (fun r =>
          Ok (if num_gtb (entry_score e) (fst v) then e :: r else r)))
    end.

Fixpoint _get_longform_helper (is_root : bool) (n : node)
    : result (list entry) :=
    match children n with
    | [] => own_entry n
    | _ :: _ =>
        bind
          ((fix over (cs : list (token * node)) (acc : list entry)
              : result (list entry) :=
              match cs with
              | [] => Ok acc
              | (_, c) :: cs' =>
                  bind (_get_longform_helper false c) (fun child_longforms =>
                  bind (keep_better is_root n child_longforms) (fun kept =>
                  over cs' (acc ++ kept)))
              end) (children n) [])
          (fun res =>
             match res with
             | [] => own_entry n
             | _ :: _ => Ok res
             end)
    end.
End Helper.

(** [n0] is [n] or one of its descendants. *)
Inductive descendant (n0 : node) : node -> Prop :=
| descendant_refl : descendant n0 n0
| descendant_child n t c :
    In (t, c) (children n) -> descendant n0 c -> descendant n0 n.

(** The [for child in node.children.values()] loop of the helper, with the
    recursive call as a parameter. *)
Section OverChildren.
Variable score_func : node -> result (number * Z).
Variable helper : node -> result (list entry).
Variable is_root : bool.
Variable n : node.

Fixpoint over_children (cs : list (token * node)) (acc : list entry)
    : result (list entry) :=
    match cs with
    | [] => Ok acc
    | (_, c) :: cs' =>
        bind (helper c) (fun child_longforms =>
        bind (keep_better score_func is_root n child_longforms) (fun kept =>
        over_children cs' (acc ++ kept)))
    end.
End OverChildren.

(** The triples of [child_longforms] that pass the comparison
    [score > score_func(node)[0]] when the node's value is [v]. *)
Definition kept_above (v : number) (child_longforms : list entry)
    : list entry :=
  filter (fun e => num_gtb (entry_score e) v) child_longforms.

(** The node is a leaf, or no child has a value greater than [s]. *)
Definition local_maximum (score_func : node -> result (number * Z)) (n0 : node)
    (s : number) : Prop :=
  children n0 = [] \/
  forall t c, In (t, c) (children n0) ->
    exists v, score_func c = Ok v /\ num_gtb (fst v) s = false.

(** The triple [e] is the one of a node at or below [n] that is a local
    maximum. *)
Definition emitted (score_func : node -> result (number * Z)) (n : node)
    (e : entry) : Prop :=
  exists n0 v, descendant n0 n /\ score_func n0 = Ok v /\
    e = (longform n0, fst v, snd v) /\ local_maximum score_func n0 (fst v).

(** What the helper returns for a node that is not the root: its own triple
    when it is a local maximum, otherwise triples from below each strictly
    above its own value. *)
Definition helper_shape (score_func : node -> result (number * Z)) (n : node)
    (r : list entry) : Prop :=
  exists v, score_func n = Ok v /\
    ((r = [(longform n, fst v, snd v)] /\ local_maximum score_func n (fst v))
     \/ (children n <> [] /\ r <> [] /\
         forall e, In e r -> num_gtb (entry_score e) (fst v) = true)).

(** ** [compute_alignment_scores] *)

(** Modelled from the spec: [adeft.score.AlignmentBasedScorer] is not part of
    the sources at hand.  Its contract is a stateless transition from the
    seven alignment slots of a node and a token to those of the child reached
    by that token; the root is seeded at construction.  [align_state] holds the
    seven slots, [align_score] reads [alignment_score] off them. *)
Class AlignmentBasedScorer : Type := {
  align_state : Type;
  align_root : string -> align_state;
  _next_score : string -> token -> align_state -> align_state;
  align_score : align_state -> number
}.

Section Alignment.
Context {scorer : AlignmentBasedScorer}.

Definition set_alignment_score (n : node) (x : number) : node :=
    Node (longform n) (stats_set n) (count n) (sum_ft n) (sum_ft2 n) (score n)
         (children n) x (best_ancestor_score n) (best_descendent_score n)
         (parent_elsewhere n).

  (** The [for token, child in current.children.items()] loop.  Of the seven
      slots the record keeps [alignment_score], the one read outside this
      pass; all seven travel with the queue entry of the node, [data]
      being those of [current]. *)
Definition visit_alignment (shortform : string) (_ : list token)
      (data : align_state) (current : node)
    : node * list (token * align_state) :=
    (set_children current
       (map (fun tc =>
               (fst tc,
                set_alignment_score (snd tc)
                  (align_score (_next_score shortform (fst tc) data))))
            (children current)),
     map (fun tc => (fst tc, _next_score shortform (fst tc) data))
         (children current)).

Definition compute_alignment_scores (shortform : string) (root : node)
    : node :=
    fst (fst (bfs_loop (visit_alignment shortform) (node_size root) root
                [([], align_root shortform)] [])).
End Alignment.

(** ** [prune] *)

(** The queue holds each node with its depth. *)
Definition visit_prune (max_depth : Z) (_ : list token) (depth : Z)
    (current : node) : node * list (token * Z) :=
  if depth + 1 >? max_depth
  then (set_children current [], [])
  else (current, map (fun tc => (fst tc, depth + 1)) (children current)).

Definition prune (root : node) (max_depth : Z) : node :=
  fst (fst (bfs_loop (visit_prune max_depth) (node_size root) root
              [([], 0)] [])).

(** ** [scaled_score] *)

Definition scaled_score (n : node) (smoothing_param : number) : number :=
  let numerator := num_sub (score n) (Int 1) in
  let denominator :=
    num_max (best_ancestor_score n) (best_descendent_score n) in
  let denominator :=
    num_add denominator (num_sub smoothing_param (Int 1)) in
  if num_leb denominator (Int 0) then Int 0
  else num_div numerator denominator.

(** ** Sorting *)

(** [sorted(l, key=...)] is stable; so is insertion from the right, which puts
    an element before the first one it is not above. *)
Section Sorted.
Variable A : Type.
Variable leb : A -> A -> bool.

Fixpoint insert_sorted (x : A) (l : list A) : list A :=
    match l with
    | [] => [x]
    | y :: l' => if leb x y then x :: l else y :: insert_sorted x l'
    end.

Definition sorted (l : list A) : list A := fold_right insert_sorted [] l.
End Sorted.

(** Comparison of tuples: the first component that differs decides. *)
Definition lex (c1 c2 : comparison) : comparison :=
  match c1 with
  | Eq => c2
  | _ => c1
  end.

(** The comparison is not [<]. *)
Definition not_less (c : comparison) : bool :=
  match c with
  | Lt => false
  | _ => true
  end.

(** How two numbers compare: equal when [==] holds, otherwise less when [<]
    holds. *)
Definition num_compare (a b : number) : comparison :=
  if num_eqb a b then Eq else if num_ltb a b then Lt else Gt.

Fixpoint tokens_compare (a b : list token) : comparison :=
  match a, b with
  | [], [] => Eq
  | [], _ :: _ => Lt
  | _ :: _, [] => Gt
  | x :: a', y :: b' => lex (String.compare x y) (tokens_compare a' b')
  end.

(** ** [top] *)

(** The key [(-x[1], len(x[0]), x[0])]: [x] goes before [y] unless the key
    of [y] is less than the key of [x]. *)
Definition top_leb (x y : list token * number) : bool :=
  not_less
    (lex (num_compare (num_neg (snd y)) (num_neg (snd x)))
       (lex (Nat.compare (List.length (fst y)) (List.length (fst x)))
            (tokens_compare (fst y) (fst x)))).

(** [candidates[0:limit]]; a negative [limit] counts from the end. *)
Definition slice_to {A : Type} (l : list A) (limit : Z) : list A :=
  if limit <? 0
  then firstn (Z.to_nat (Z.of_nat (List.length l) + limit)) l
  else firstn (Z.to_nat limit) l.

Definition join_space (words : list string) : string :=
  String.concat " " words.

Definition top {S} `{WatchfulStemmer S} (self : AdeftMiner S)
    (limit : option Z) : list (string * number) :=
  match _longforms self with
  | [] => []
  | _ :: _ =>
      let candidates := sorted top_leb (_longforms self) in
      let candidates :=
        match limit with
        | Some k =>
            if k <? Z.of_nat (List.length candidates)
            then slice_to candidates k
            else candidates
        | None => candidates
        end in
      map (fun ls =>
             (join_space (map (most_frequent (_stemmer self)) (fst ls)),
              snd ls))
          candidates
  end.

(** ** [get_longforms] *)

Inductive max_length_arg : Type :=
| Auto
| NoLimit
| AtMost (n : Z).

Definition _make_readable {S} `{WatchfulStemmer S} (self : AdeftMiner S)
    (tokens : list token) : string :=
  join_space (map (most_frequent (_stemmer self)) (rev tokens)).

(** The key [(-x[2], -x[1], x[0])] on triples [(longform, score, count)]. *)
Definition longform_leb (x y : string * number * Z) : bool :=
  not_less
    (lex (Z.compare (- snd y) (- snd x))
       (lex (num_compare (num_neg (snd (fst y))) (num_neg (snd (fst x))))
            (String.compare (fst (fst y)) (fst (fst x))))).

(** Reading [node.count] fails on a node that has none. *)
Definition read_count (n : node) : result Z :=
  if stats_set n then Ok (count n) else Raise (AttributeError "count").

Section GetLongforms.
Context {S : Type} `{WatchfulStemmer S} {scorer : AlignmentBasedScorer}.

  (** [numpy.exp]. *)
Variable np_exp : number -> number.

  (** [score_func] when [use_abs] is false. *)
Definition score_func_acromine (smoothing_param : number) (n : node)
    : result (number * Z) :=
    let s := scaled_score n smoothing_param in
    bind (read_count n) (fun c => Ok (s, c)).

  (** [score_func] when [use_abs] is true. *)
Definition score_func_blended (smoothing_param abs_decay_param : number)
      (n : node) : result (number * Z) :=
    let acro_score := scaled_score n smoothing_param in
    let phi :=
      np_exp
        (num_mul (num_neg abs_decay_param)
           (num_max
              (num_max (Int 0) (num_sub (best_ancestor_score n) (Int 1)))
              (num_sub (best_descendent_score n) (Int 1)))) in
    let s :=
      num_add (num_mul phi (alignment_score n))
              (num_mul (num_sub (Int 1) phi) acro_score) in
    bind (read_count n) (fun c => Ok (s, c)).

Definition within (max_length : max_length_arg) (longform : list token)
    : bool :=
    match max_length with
    | AtMost k => Z.of_nat (List.length longform) <=? k
    | _ => true
    end.

  (** The miner as the call leaves it, and what the call returns or raises. *)
Definition get_longforms (self : AdeftMiner S)
      (cutoff smoothing_param : number) (max_length : max_length_arg)
      (use_abs : bool) (abs_decay_param : number)
    : AdeftMiner S * result (list (string * Z * number)) :=
    let max_length :=
      match max_length with
      | Auto => AtMost (2 * Z.of_nat (String.length (shortform self)) + 1)
      | m => m
      end in
    let self1 :=
      if _scores_propagated self then self
      else Miner (shortform self) (_propagate_scores (_internal_trie self))
             (_longforms self) (_stemmer self) (window self)
             (_alignment_scores_computed self) true in
    let self2 :=
      if use_abs then
        if _alignment_scores_computed self1 then self1
        else Miner (shortform self1)
               (compute_alignment_scores (shortform self1)
                  (_internal_trie self1))
               (_longforms self1) (_stemmer self1) (window self1) true
               (_scores_propagated self1)
      else self1 in
    let score_func :=
      if use_abs then score_func_blended smoothing_param abs_decay_param
      else score_func_acromine smoothing_param in
    (self2,
     bind (_get_longform_helper score_func true (_internal_trie self2))
       (fun longforms =>
          let longforms :=
            filter (fun e => num_gtb (entry_score e) cutoff) longforms in
          let longforms :=
            map (fun e => (_make_readable self2 (fst (fst e)),
                           snd (fst e), snd e))
              (filter (fun e => within max_length (fst (fst e))) longforms) in
          let longforms := sorted longform_leb longforms in
          Ok (map (fun x => (fst (fst x), snd x, snd (fst x))) longforms))).
End GetLongforms.

(** The float literals [0.1] and [0.001], the defaults of [cutoff] and
    [abs_decay_param] in the signature of [get_longforms]; [smoothing_param]
    defaults to the integer [4]. *)
Definition default_cutoff : number :=
  Float (S754_finite false 7205759403792794 (-56)).

Definition default_abs_decay_param : number :=
  Float (S754_finite false 4611686018427388 (-62)).

(** A scorer that gives every candidate the alignment score [0]. *)
#[export] Instance null_scorer : AlignmentBasedScorer := {
  align_state := unit;
  align_root := fun _ => tt;
  _next_score := fun _ _ st => st;
  align_score := fun _ => Int 0
}.

(** ** Paths that do not contain one another *)

(** Neither path is a prefix of the other: they part at some token. *)
Fixpoint incomparable (p q : list token) : Prop :=
  match p, q with
  | t :: p', u :: q' => t <> u \/ incomparable p' q'
  | _, _ => False
  end.

Fixpoint antichain (ps : list (list token)) : Prop :=
  match ps with
  | [] => True
  | p :: ps' => Forall (incomparable p) ps' /\ antichain ps'
  end.

(** ** What a breadth-first traversal computes *)

(** The traversal as a descent: [descent p x n n''] says that visiting [n] at
    [p] with [x], then in turn each child the visit queues, turns [n] into
    [n''].  [drained root queue root'] says the same of a whole queue, one
    entry after the other. *)
Section Descent.
Variable X : Type.
Variable visit : list token -> X -> node -> node * list (token * X).

Inductive descent : list token -> X -> node -> node -> Prop :=
  | descent_intro p x n n' next n'' :
      visit p x n = (n', next) ->
      descent_children p next n' n'' ->
      descent p x n n''
  with descent_children
    : list token -> list (token * X) -> node -> node -> Prop :=
  | descent_nil p n : descent_children p [] n n
  | descent_cons p t y next n c c' n'' :
      child n t = Some c ->
      descent (p ++ [t]) y c c' ->
      descent_children p next (set_child n t c') n'' ->
      descent_children p ((t, y) :: next) n n''.

Inductive drained : node -> list (list token * X) -> node -> Prop :=
  | drained_nil root : drained root [] root
  | drained_cons root p x rest n n'' root' :
      get_at root p = Some n ->
      descent p x n n'' ->
      drained (put_at root p n'') rest root' ->
      drained root ((p, x) :: rest) root'.

  (** How the descent through the queued children relates the children
      before and after, one by one. *)
Definition child_descent (p : list token) (next : list (token * X))
      (tc tc'' : token * node) : Prop :=
    fst tc'' = fst tc /\
    match Dict.get string_dec next (fst tc) with
    | Some y => descent (p ++ [fst tc]) y (snd tc) (snd tc'')
    | None => snd tc'' = snd tc
    end.

  (** What a queue still costs: [weight x n] turns for an entry carrying [x]
      at the node [n]. *)
Variable weight : X -> node -> nat.

Definition entry_weight (root : node) (e : list token * X) : nat :=
    match get_at root (fst e) with
    | Some n => weight (snd e) n
    | None => O
    end.

Definition queue_weight (root : node) (queue : list (list token * X))
    : nat :=
    list_sum (map (entry_weight root) queue).

  (** The entries lie at nodes of the trie, none below another, and each
      satisfies [good]. *)
Variable good : X -> node -> Prop.

Definition queue_ok (root : node) (queue : list (list token * X)) : Prop :=
    antichain (map fst queue) /\
    forall q x, In (q, x) queue ->
      exists m, get_at root q = Some m /\ good x m.

  (** A visit at a good entry queues children that exist, each once, good in
      their turn, and together cheaper than the entry. *)
Definition visit_ok : Prop :=
    forall p x n n' next,
      good x n -> visit p x n = (n', next) ->
      NoDup (map fst next) /\
      (forall t y, In (t, y) next -> exists c, child n' t = Some c /\ good y c)
      /\ (queue_weight n' (queued [] next) < weight x n)%nat.
End Descent.

(** ** Shape of a trie *)

(** A [dict] holds a key once. *)
Definition unique_keys (n : node) : Prop := NoDup (map fst (children n)).

Definition well_keyed (n : node) : Prop := ForallNodes unique_keys n.

Definition children_size (cs : list (token * node)) : nat :=
  list_sum (map (fun tc => node_size (snd tc)) cs).



(** ** [update] as a breadth-first traversal *)

(** What the [for] loop of [update] does to the trie alone: the node [lnode]
    after the loop, and the children of the other node that it queues, those
    whose token [lnode] already had. *)
Fixpoint merge_trie (is_root : bool) (lnode : node)
    (rchildren : list (token * node)) : node * list (token * node) :=
  match rchildren with
  | [] => (lnode, [])
  | (tok, ch) :: rest =>
      match child lnode tok with
      | None =>
          let left1 := set_child lnode tok (graft ch) in
          let left2 :=
            if is_root then left1
            else update_likelihood left1 (count ch) (count ch) in
          merge_trie is_root left2 rest
      | Some current =>
          let current1 := increment_count current (count ch) in
          let left1 := set_child lnode tok current1 in
          let left2 :=
            if is_root then left1
            else update_likelihood left1 (count current1) (count ch) in
          let '(lnode', next) := merge_trie is_root left2 rest in
          (lnode', (tok, ch) :: next)
      end
  end.

Definition visit_update (p : list token) (rnode lnode : node)
  : node * list (token * node) :=
  merge_trie (is_nil p) lnode (children rnode).

(** ** Bounds on the statistics *)

(** The counts of the children of a node add up to at most its own. *)
Definition bounded (n : node) : Prop := sum_ft n <= count n.

(** ** Mining two corpora in one miner, and in two miners then merged *)

(** The two tries hold the same statistics at every node: same tokens in the
    same order, same [longform], [count], [sum_ft], [sum_ft2], and scores
    that are the same number. *)
Fixpoint same_statistics (a b : node) : bool :=
  (if tokens_eq_dec (longform a) (longform b) then true else false)
  && (count a =? count b) && (sum_ft a =? sum_ft b)
  && (sum_ft2 a =? sum_ft2 b) && num_eqb (score a) (score b)
  && (fix go (cs1 cs2 : list (token * node)) : bool :=
        match cs1, cs2 with
        | [], [] => true
        | (t1, c1) :: r1, (t2, c2) :: r2 =>
            String.eqb t1 t2 && same_statistics c1 c2 && go r1 r2
        | _, _ => false
        end) (children a) (children b).

(** The candidate [c a] seen three times, the candidate [b a] twelve
    times. *)
Definition corpus_A : list string := repeat "c a"%string 3.
Definition corpus_B : list string := repeat "b a"%string 12.

Definition sequential_miner : AdeftMiner unit :=
  process_texts (process_texts (new_miner "ER" 100) corpus_A) corpus_B.

Definition merged_miner : AdeftMiner unit :=
  update (process_texts (new_miner "ER" 100) corpus_A)
         (process_texts (new_miner "ER" 100) corpus_B).

(** The longforms a call of [get_longforms] returns, without counts and
    scores. *)
Definition returned_texts (r : result (list (string * Z * number)))
  : result (list string) :=
  bind r (fun l => Ok (map (fun x => fst (fst x)) l)).

(** ** Serialization of the trie *)

(** The value [_TrieNode.to_dict] stores under a token: the dictionary with
    keys [count], [score], [sum_ft], [sum_ft2], [longform] and [children]. *)
Inductive trie_entry : Type := Entry {
  e_count : Z;
  e_score : number;
  e_sum_ft : Z;
  e_sum_ft2 : Z;
  e_longform : list token;
  e_children : list (token * trie_entry)
}.

Definition trie_dict : Type := list (token * trie_entry).

(** Reading [count], [sum_ft] or [sum_ft2] of a node. *)
Definition read_stat (slot : string) (n : node) (v : Z) : result Z :=
  if stats_set n then Ok v else Raise (AttributeError slot).

(** [_TrieNode.to_dict()] *)
Fixpoint node_to_dict (n : node) : result trie_dict :=
  (fix over (cs : list (token * node)) (out : trie_dict)
     : result trie_dict :=
     match cs with
     | [] => Ok out
     | (tok, c) :: cs' =>
         bind (read_stat "count" c (count c)) (fun cnt =>
         bind (read_stat "sum_ft" c (sum_ft c)) (fun s =>
         bind (read_stat "sum_ft2" c (sum_ft2 c)) (fun s2 =>
         bind (node_to_dict c) (fun sub =>
         over cs'
           (Dict.set string_dec out tok
              (Entry cnt (score c) s s2 (longform c) sub))))))
     end) (children n) [].

(** [_load_trie_helper(entry, parent)] *)
Fixpoint _load_trie_helper (entry : trie_entry) : node :=
  let node0 := new_node (e_longform entry) in
  let node1 :=
    Node (longform node0) true (e_count entry) (e_sum_ft entry)
         (e_sum_ft2 entry) (e_score entry) (children node0)
         (alignment_score node0) (best_ancestor_score node0)
         (best_descendent_score node0) (parent_elsewhere node0) in
  fold_left
    (fun n kv => set_child n (fst kv) (_load_trie_helper (snd kv)))
    (e_children entry) node1.

(** [load_trie(trie_dict, shortform)] *)
Definition load_trie (d : trie_dict) : node :=
  fold_left (fun root kv => set_child root (fst kv) (_load_trie_helper (snd kv)))
    d (new_node []).

(** Two tries agree on what [to_dict] writes: [longform], [count], [score],
    [sum_ft], [sum_ft2] and the children, token by token. *)
Inductive same_slots : node -> node -> Prop :=
| same_slots_intro a b :
    longform a = longform b -> count a = count b -> score a = score b ->
    sum_ft a = sum_ft b -> sum_ft2 a = sum_ft2 b ->
    Forall2 (fun x y => fst x = fst y /\ same_slots (snd x) (snd y))
      (children a) (children b) ->
    same_slots a b.

(** ** [str] of a tuple of strings, and [ast.literal_eval] *)

(** A character of a Python string is taken to be a code point below 256,
    held in an [ascii].  [repr] of a string writes a character as it is when
    [str.isprintable] holds of it, and escaped otherwise. *)
Definition is_printable (c : ascii) : bool :=
  let n := nat_of_ascii c in
  ((32 <=? n) && (n <? 127) || (161 <=? n) && negb (n =? 173))%nat.

Definition hex_digit (n : nat) : ascii :=
  match n with
  | 0 => "0" | 1 => "1" | 2 => "2" | 3 => "3" | 4 => "4" | 5 => "5"
  | 6 => "6" | 7 => "7" | 8 => "8" | 9 => "9" | 10 => "a" | 11 => "b"
  | 12 => "c" | 13 => "d" | 14 => "e" | _ => "f"
  end%nat%char.

Definition backslash : ascii := "\"%char.
Definition squote : ascii := "'"%char.
Definition dquote : ascii := ascii_of_nat 34.
Definition char_tab : ascii := ascii_of_nat 9.
Definition char_lf : ascii := ascii_of_nat 10.
Definition char_cr : ascii := ascii_of_nat 13.

(** One character inside the quotes [q]. *)
Definition escape_char (q c : ascii) : string :=
  if Ascii.eqb c q || Ascii.eqb c backslash then String backslash (String c "")
  else if Ascii.eqb c char_tab then String backslash "t"
  else if Ascii.eqb c char_lf then String backslash "n"
  else if Ascii.eqb c char_cr then String backslash "r"
  else if is_printable c then String c ""
  else String backslash
         (String "x"
            (String (hex_digit (nat_of_ascii c / 16))
               (String (hex_digit (nat_of_ascii c mod 16)) ""))).

Fixpoint escape_all (q : ascii) (s : string) : string :=
  match s with
  | EmptyString => EmptyString
  | String c s' => escape_char q c ++ escape_all q s'
  end.

Fixpoint contains (c : ascii) (s : string) : bool :=
  match s with
  | EmptyString => false
  | String c' s' => Ascii.eqb c c' || contains c s'
  end.

(** Double quotes when the string holds a single quote and no double one. *)
Definition quote_for (s : string) : ascii :=
  if contains squote s && negb (contains dquote s) then dquote else squote.

(** [repr(s)] *)
Definition py_repr (s : string) : string :=
  let q := quote_for s in
  String q (escape_all q s ++ String q "").

(** [str(t)] for a tuple [t] of strings. *)
Definition py_str_tuple (t : list string) : string :=
  match t with
  | [] => "()"
  | [x] => "(" ++ py_repr x ++ ",)"
  | _ => "(" ++ String.concat ", " (map py_repr t) ++ ")"
  end.

(** [ast.literal_eval] on the text of a tuple of string literals, read one
    character at a time.  Of Python's literals this covers what [str] writes
    for such a tuple, with blanks allowed between the parts; on any other
    text the result is [None], whatever Python makes of it. *)
Inductive reader : Type :=
| BeforeTuple
| BeforeItem (items : list string) (after_comma : bool)
| InString (q : ascii) (items : list string) (cur : string)
           (after_comma : bool)
| AfterBackslash (q : ascii) (items : list string) (cur : string)
                 (after_comma : bool)
| HexHigh (q : ascii) (items : list string) (cur : string)
          (after_comma : bool)
| HexLow (q : ascii) (items : list string) (cur : string)
         (after_comma : bool) (high : nat)
| AfterItem (items : list string) (after_comma : bool)
| AfterTuple (items : list string).

Definition hex_value (c : ascii) : option nat :=
  let n := nat_of_ascii c in
  if ((48 <=? n) && (n <=? 57))%nat then Some (n - 48)%nat
  else if ((97 <=? n) && (n <=? 102))%nat then Some (n - 87)%nat
  else if ((65 <=? n) && (n <=? 70))%nat then Some (n - 55)%nat
  else None.

Definition push (cur : string) (c : ascii) : string :=
  cur ++ String c "".

Definition read_char (r : reader) (c : ascii) : option reader :=
  match r with
  | BeforeTuple =>
      if Ascii.eqb c " " then Some BeforeTuple
      else if Ascii.eqb c "(" then Some (BeforeItem [] false)
      else None
  | BeforeItem items after_comma =>
      if Ascii.eqb c " " then Some r
      else if Ascii.eqb c squote || Ascii.eqb c dquote
      then Some (InString c items "" after_comma)
      else if Ascii.eqb c ")"
      then match items, after_comma with
           | [], false => Some (AfterTuple [])
           | _ :: _, true => Some (AfterTuple items)
           | _, _ => None
           end
      else None
  | InString q items cur after_comma =>
      if Ascii.eqb c q then Some (AfterItem (items ++ [cur]) after_comma)
      else if Ascii.eqb c backslash
      then Some (AfterBackslash q items cur after_comma)
      else if Ascii.eqb c char_lf then None
      else Some (InString q items (push cur c) after_comma)
  | AfterBackslash q items cur after_comma =>
      let keep x := Some (InString q items (push cur x) after_comma) in
      if Ascii.eqb c backslash then keep backslash
      else if Ascii.eqb c squote then keep squote
      else if Ascii.eqb c dquote then keep dquote
      else if Ascii.eqb c "n" then keep char_lf
      else if Ascii.eqb c "r" then keep char_cr
      else if Ascii.eqb c "t" then keep char_tab
      else if Ascii.eqb c "a" then keep (ascii_of_nat 7)
      else if Ascii.eqb c "b" then keep (ascii_of_nat 8)
      else if Ascii.eqb c "f" then keep (ascii_of_nat 12)
      else if Ascii.eqb c "v" then keep (ascii_of_nat 11)
      else if Ascii.eqb c "x" then Some (HexHigh q items cur after_comma)
      else None
  | HexHigh q items cur after_comma =>
      match hex_value c with
      | Some h => Some (HexLow q items cur after_comma h)
      | None => None
      end
  | HexLow q items cur after_comma high =>
      match hex_value c with
      | Some l =>
          Some (InString q items
                  (push cur (ascii_of_nat (16 * high + l))) after_comma)
      | None => None
      end
  | AfterItem items after_comma =>
      if Ascii.eqb c " " then Some r
      else if Ascii.eqb c "," then Some (BeforeItem items true)
      else if Ascii.eqb c ")"
      then if after_comma then Some (AfterTuple items) else None
      else None
  | AfterTuple items =>
      if Ascii.eqb c " " then Some r else None
  end.

Fixpoint read_all (r : reader) (s : string) : option reader :=
  match s with
  | EmptyString => Some r
  | String c s' =>
      match read_char r c with
      | Some r' => read_all r' s'
      | None => None
      end
  end.

Definition literal_eval (s : string) : option (list string) :=
  match read_all BeforeTuple s with
  | Some (AfterTuple items) => Some items
  | _ => None
  end.

(** ** Serialization of the miner *)

(** The dictionary [AdeftMiner.to_dict] returns. *)
Record miner_dict (S : Type) : Type := MinerDict {
  d_shortform : string;
  d_internal_trie : trie_dict;
  d_longforms : list (string * number);
  d_stemmer : S;
  d_window : Z
}.

(** [{str(key): value for key, value in self._longforms.items()}] *)
Definition longforms_to_dict (lfs : candidates)
  : list (string * number) :=
  fold_left (fun d kv => Dict.set string_dec d (py_str_tuple (fst kv)) (snd kv))
    lfs [].

(** [AdeftMiner.to_dict()] *)
Definition to_dict {S} `{WatchfulStemmer S} (self : AdeftMiner S)
  : result (miner_dict S) :=
  bind (node_to_dict (_internal_trie self)) (fun trie =>
  Ok (MinerDict (shortform self) trie (longforms_to_dict (_longforms self))
        (stemmer_dump (_stemmer self)) (window self))).

(** [{literal_eval(key): value for key, value in ....items()}] *)
Fixpoint longforms_from_dict (d : list (string * number))
    (out : candidates)
  : result candidates :=
  match d with
  | [] => Ok out
  | (key, value) :: d' =>
      match literal_eval key with
      | Some k => longforms_from_dict d' (lf_set out k value)
      | None => Raise (SyntaxError key)
      end
  end.

(** [load_adeft_miner_from_dict(dictionary)] *)
Definition load_adeft_miner_from_dict {S} `{WatchfulStemmer S}
    (dictionary : miner_dict S) : result (AdeftMiner S) :=
  let out := new_miner (d_shortform dictionary) (d_window dictionary) in
  let trie := load_trie (d_internal_trie dictionary) in
  bind (longforms_from_dict (d_longforms dictionary) []) (fun lfs =>
  Ok (Miner (shortform out) trie lfs (stemmer_load (d_stemmer dictionary))
        (window out) (_alignment_scores_computed out)
        (_scores_propagated out))).

(** The dictionary of a trie when every node below the root has its
    statistics. *)
Fixpoint dict_of (n : node) : trie_dict :=
  map (fun tc =>
         (fst tc,
          Entry (count (snd tc)) (score (snd tc)) (sum_ft (snd tc))
                (sum_ft2 (snd tc)) (longform (snd tc)) (dict_of (snd tc))))
      (children n).

(** The loop of [to_dict], with the recursive call as a parameter. *)
Section ToDictOver.
Variable to_dict_rec : node -> result trie_dict.

Fixpoint to_dict_over (cs : list (token * node)) (out : trie_dict)
    : result trie_dict :=
    match cs with
    | [] => Ok out
    | (tok, c) :: cs' =>
        bind (read_stat "count" c (count c)) (fun cnt =>
        bind (read_stat "sum_ft" c (sum_ft c)) (fun s =>
        bind (read_stat "sum_ft2" c (sum_ft2 c)) (fun s2 =>
        bind (to_dict_rec c) (fun sub =>
        to_dict_over cs'
          (Dict.set string_dec out tok
             (Entry cnt (score c) s s2 (longform c) sub))))))
    end.
End ToDictOver.

(** The slots of a root other than its children are those [__init__] gave
    it. *)
Definition fresh_root (n : node) : Prop := set_children n [] = new_node [].

(** * Theorems *)

Module DictFacts.
Section WithKey.
Variables K V : Type.
Variable K_eq_dec : forall a b : K, {a = b} + {a <> b}.
Implicit Types (d : list (K * V)) (k : K) (v : V).

Lemma get_set_same d k v : Dict.get K_eq_dec (Dict.set K_eq_dec d k v) k = Some v.
Proof.
    induction d as [|[k' v'] d IH]; simpl.
    - destruct (K_eq_dec k k); congruence.
    - destruct (K_eq_dec k k') as [e|n]; simpl.
      + destruct (K_eq_dec k k'); congruence.
      + destruct (K_eq_dec k k'); [congruence|exact IH].
Qed.

Lemma get_set_other d k k' v : k' <> k -> Dict.get K_eq_dec (Dict.set K_eq_dec d k v) k' = Dict.get K_eq_dec d k'.
Proof.
    intros Hne. induction d as [|[k0 v0] d IH]; simpl.
    - destruct (K_eq_dec k' k); congruence.
    - destruct (K_eq_dec k k0) as [e|n]; simpl.
      + subst k0. destruct (K_eq_dec k' k); congruence.
      + destruct (K_eq_dec k' k0); [reflexivity|exact IH].
Qed.

Lemma get_In d k v : Dict.get K_eq_dec d k = Some v -> In (k, v) d.
Proof.
    induction d as [|[k' v'] d IH]; simpl; [discriminate|].
    destruct (K_eq_dec k k') as [e|n].
    - intros [= ->]. subst. now left.
    - intros H. right. now apply IH.
Qed.

Lemma get_None_notin d k : Dict.get K_eq_dec d k = None -> ~ In k (Dict.keys d).
Proof.
    induction d as [|[k' v'] d IH]; simpl; [tauto|].
    destruct (K_eq_dec k k') as [e|n]; [discriminate|].
    intros H [E|I]; [congruence|]. now apply IH.
Qed.

Lemma In_get_NoDup d k v :
    NoDup (Dict.keys d) -> In (k, v) d -> Dict.get K_eq_dec d k = Some v.
Proof.
    induction d as [|[k' v'] d IH]; simpl; [tauto|].
    intros Hnd [E|I].
    - inversion E; subst. destruct (K_eq_dec k k); congruence.
    - inversion Hnd as [|? ? Hn Hnd']; subst.
      destruct (K_eq_dec k k') as [e|n].
      + subst k'. exfalso. apply Hn. unfold Dict.keys.
        change k with (fst (k, v)). now apply in_map.
      + now apply IH.
Qed.

Lemma set_absent d k v : Dict.get K_eq_dec d k = None -> Dict.set K_eq_dec d k v = d ++ [(k, v)].
Proof.
    induction d as [|[k' v'] d IH]; simpl; [reflexivity|].
    destruct (K_eq_dec k k'); [discriminate|].
    intros H. now rewrite IH.
Qed.

Lemma keys_set_present d k v :
    Dict.get K_eq_dec d k <> None -> Dict.keys (Dict.set K_eq_dec d k v) = Dict.keys d.
Proof.
    induction d as [|[k' v'] d IH]; simpl; [congruence|].
    destruct (K_eq_dec k k'); simpl; [reflexivity|].
    intros H. now rewrite IH.
Qed.
End WithKey.
End DictFacts.

(** ** Reasoning about tries *)

(** Structural induction on a node through its children. *)
Lemma node_children_ind (P : node -> Prop)
    (step : forall n, (forall t c, In (t, c) (children n) -> P c) -> P n) :
  forall n, P n.
Proof.
  fix IH 1. intros n. apply step.
  destruct n as [lf ss c s s2 sc cs a ba bd pe]. simpl.
  revert cs. fix IHcs 1. intros [|[t0 c0] cs] t c' Hin.
  - destruct Hin.
  - destruct Hin as [E|Hin].
    + apply (f_equal snd) in E. simpl in E. rewrite <- E. apply IH.
    + exact (IHcs cs t c' Hin).
Qed.

Lemma ForallNodes_here P n : ForallNodes P n -> P n.
Proof. now intros []. Qed.

Lemma ForallNodes_child P n t c :
  ForallNodes P n -> In (t, c) (children n) -> ForallNodes P c.
Proof. intros [] Hin; eauto. Qed.

Lemma ForallNodes_impl (P Q : node -> Prop) n :
  (forall m, P m -> Q m) -> ForallNodes P n -> ForallNodes Q n.
Proof.
  intros HPQ. induction 1 as [n Hn _ IH]. constructor; auto.
Qed.

Section DictSums.
Variable f : node -> Z.

Lemma total_cons t c cs : total f ((t, c) :: cs) = f c + total f cs.
Proof. reflexivity. Qed.

Lemma total_app cs cs' : total f (cs ++ cs') = total f cs + total f cs'.
Proof.
    induction cs as [|[t c] cs IH]; [reflexivity|].
    rewrite <- app_comm_cons, !total_cons, IH. lia.
Qed.

Lemma total_set_absent cs t c :
    Dict.get string_dec cs t = None ->
    total f (Dict.set string_dec cs t c) = total f cs + f c.
Proof.
    intros H. rewrite (DictFacts.set_absent _ _ _ _ H), total_app.
    rewrite total_cons. simpl. lia.
Qed.

Lemma total_set_present cs t c old :
    Dict.get string_dec cs t = Some old ->
    total f (Dict.set string_dec cs t c) = total f cs - f old + f c.
Proof.
    induction cs as [|[t' c'] cs IH]; simpl; [discriminate|].
    destruct (string_dec t t') as [e|n].
    - intros [= ->]. rewrite !total_cons. lia.
    - intros H. specialize (IH H). rewrite !total_cons. lia.
Qed.

Lemma total_nonneg cs :
    (forall t c, In (t, c) cs -> 0 <= f c) -> 0 <= total f cs.
Proof.
    induction cs as [|[t c] cs IH]; intros H; [simpl; lia|].
    rewrite total_cons.
    assert (0 <= f c) by (apply (H t); now left).
    assert (0 <= total f cs) by (apply IH; intros; eapply H; right; eauto).
    lia.
Qed.

Lemma total_ge_member cs t c :
    (forall t c, In (t, c) cs -> 0 <= f c) -> In (t, c) cs ->
    f c <= total f cs.
Proof.
    induction cs as [|[t' c'] cs IH]; intros H Hin; [destruct Hin|].
    rewrite total_cons.
    assert (0 <= f c') by (apply (H t'); now left).
    assert (0 <= total f cs)
      by (apply total_nonneg; intros; eapply H; right; eauto).
    destruct Hin as [E|Hin].
    - inversion E; subst. lia.
    - assert (f c <= total f cs)
        by (apply IH; auto; intros; eapply H; right; eauto).
      lia.
Qed.
End DictSums.

(** ** The incremental statistic *)

Lemma In_dict_set (V : Type) (d : list (token * V)) k v k' v' :
  In (k', v') (Dict.set string_dec d k v) -> (k', v') = (k, v) \/ In (k', v') d.
Proof.
  induction d as [|[k0 v0] d IH]; simpl.
  - intros [E|[]]. left. congruence.
  - destruct (string_dec k k0) as [e|n]; simpl.
    + intros [E|I]; [left; congruence|right; now right].
    + intros [E|I]; [right; now left|].
      destruct (IH I) as [E|I']; [now left|right; now right].
Qed.

Lemma new_node_nonroot lf tok :
  new_node (lf ++ [tok]) =
  Node (lf ++ [tok]) true 1 0 0 (Int 1) [] (Int 0) (Int (-1)) (Int (-1)) false.
Proof. unfold new_node. destruct lf; reflexivity. Qed.

Lemma consistent_new_node lf tok : consistent (new_node (lf ++ [tok])).
Proof. rewrite new_node_nonroot. constructor; simpl; try reflexivity; lia. Qed.

Lemma consistent_sum_ft_nonneg n :
  consistent n -> ForallNonRoot consistent n -> 0 <= sum_ft n.
Proof.
  intros Hc Hch. rewrite (cons_sum_ft Hc). apply total_nonneg.
  intros t c Hin. pose proof (cons_count (ForallNodes_here (Hch t c Hin))). lia.
Qed.

(** The divisor of the last statement of [update_likelihood] is not zero. *)
Lemma update_likelihood_divisor n cnt increment :
  0 <= sum_ft n -> 0 < increment ->
  sum_ft (update_likelihood n cnt increment) <> 0.
Proof. simpl. lia. Qed.

Lemma consistent_increment_count n increment :
  0 <= increment -> consistent n -> consistent (increment_count n increment).
Proof.
  intros Hi [H1 H2 H3 H4 H5]. constructor; simpl; auto; try lia.
  intros E. now rewrite (H5 E).
Qed.

(** A non-root node whose child under [tok] went from count [c_old] to
    [count c'] stays consistent after [update_likelihood] with the increment. *)
Lemma consistent_update_child n tok c' c_old increment :
  consistent n -> ForallNonRoot consistent n -> 0 < increment ->
  count c' = c_old + increment ->
  match child n tok with
  | Some c => count c = c_old
  | None => c_old = 0
  end ->
  consistent (set_child (update_likelihood n (count c') increment) tok c').
Proof.
  intros Hc Hch Hi Hcnt Hold.
  pose proof (consistent_sum_ft_nonneg Hc Hch) as Hnn.
  destruct Hc as [H1 H2 H3 H4 H5].
  constructor;
    cbn [set_child set_children update_likelihood stats_set count sum_ft
         sum_ft2 score children]; auto.
  - unfold child in Hold. unfold sum_counts in *.
    destruct (Dict.get string_dec (children n) tok) as [c|] eqn:E.
    + rewrite (total_set_present _ _ _ _ E). lia.
    + rewrite (total_set_absent _ _ _ _ E). lia.
  - unfold child in Hold. unfold sum_squares in *.
    destruct (Dict.get string_dec (children n) tok) as [c|] eqn:E.
    + rewrite (total_set_present _ _ _ _ E). rewrite Hcnt, Hold. nia.
    + rewrite (total_set_absent _ _ _ _ E). rewrite Hcnt, Hold. nia.
  - intros E. exfalso. lia.
Qed.

Lemma ForallNonRoot_set_child P n tok c :
  ForallNonRoot P n -> ForallNodes P c -> ForallNonRoot P (set_child n tok c).
Proof.
  intros Hn Hc t c' Hin. simpl in Hin.
  destruct (In_dict_set _ _ _ _ _ Hin) as [E|I].
  - inversion E; subst. exact Hc.
  - exact (Hn t c' I).
Qed.

Lemma ForallNonRoot_same_children P n n' :
  children n' = children n -> ForallNonRoot P n -> ForallNonRoot P n'.
Proof. unfold ForallNonRoot. intros ->. auto. Qed.

Lemma child_In n tok c : child n tok = Some c -> In (tok, c) (children n).
Proof. apply DictFacts.get_In. Qed.

(** What the loop of [_add] leaves untouched on the node it starts from. *)
Lemma _add_walk_fields tokens : forall is_root current lfs,
  let current' := fst (_add_walk is_root current tokens lfs) in
  longform current' = longform current /\
  stats_set current' = stats_set current /\
  count current' = count current.
Proof.
  destruct tokens as [|tok rest]; intros is_root current lfs; simpl; auto.
  destruct (child current tok) as [c|].
  - destruct (_add_walk false (increment_count c 1) rest _) as [c2 lfs3].
    destruct is_root; simpl; auto.
  - destruct (_add_walk false (new_node (longform current ++ [tok])) rest _)
      as [c2 lfs3].
    destruct is_root; simpl; auto.
Qed.

(** One run of the loop of [_add] keeps every non-root node consistent. *)
Lemma _add_walk_consistent tokens : forall is_root current lfs,
  (is_root = false -> consistent current) ->
  ForallNonRoot consistent current ->
  let current' := fst (_add_walk is_root current tokens lfs) in
  (is_root = false -> consistent current') /\
  ForallNonRoot consistent current'.
Proof.
  induction tokens as [|tok rest IH]; intros is_root current lfs Hc Hch;
    [simpl; auto|].
  cbn [_add_walk]. cbv zeta.
  destruct (child current tok) as [c|] eqn:Ec.
  - (* the candidate was observed before *)
    assert (Hwc : ForallNodes consistent c)
      by (eapply Hch; apply child_In; exact Ec).
    set (c1 := increment_count c 1).
    assert (Hc1 : consistent c1).
    { apply consistent_increment_count; [lia|]. exact (ForallNodes_here Hwc). }
    assert (Hch1 : ForallNonRoot consistent c1).
    { intros t x Hin. eapply ForallNodes_child; [exact Hwc|exact Hin]. }
    match goal with |- context [_add_walk false c1 rest ?l] =>
      specialize (IH false c1 l (fun _ => Hc1) Hch1);
      pose proof (_add_walk_fields rest false c1 l) as Hf;
      destruct (_add_walk false c1 rest l) as [c2 lfs3] end.
    cbn [fst] in *. destruct IH as [IHc IHch]. destruct Hf as (_ & _ & Hcnt).
    assert (Hw2 : ForallNodes consistent c2).
    { constructor; [now apply IHc|exact IHch]. }
    destruct is_root.
    + split; [discriminate|]. now apply ForallNonRoot_set_child.
    + specialize (Hc eq_refl). split.
      * intros _. replace (count c1) with (count c2) by exact Hcnt.
        apply consistent_update_child with (c_old := count c); auto; try lia.
        now rewrite Ec.
      * apply ForallNonRoot_set_child; [|exact Hw2].
        eapply ForallNonRoot_same_children; [|exact Hch]. reflexivity.
  - (* the candidate is observed for the first time *)
    set (new := new_node (longform current ++ [tok])).
    assert (Hn : consistent new) by apply consistent_new_node.
    assert (Hnch : ForallNonRoot consistent new).
    { subst new. rewrite new_node_nonroot. intros t x []. }
    match goal with |- context [_add_walk false new rest ?l] =>
      specialize (IH false new l (fun _ => Hn) Hnch);
      pose proof (_add_walk_fields rest false new l) as Hf;
      destruct (_add_walk false new rest l) as [c2 lfs3] end.
    cbn [fst] in *. destruct IH as [IHc IHch]. destruct Hf as (_ & _ & Hcnt).
    assert (Hw2 : ForallNodes consistent c2).
    { constructor; [now apply IHc|exact IHch]. }
    assert (Hone : count c2 = 1).
    { rewrite Hcnt. subst new. now rewrite new_node_nonroot. }
    destruct is_root.
    + split; [discriminate|]. now apply ForallNonRoot_set_child.
    + specialize (Hc eq_refl). split.
      * intros _. replace 1 with (count c2) at 1 by exact Hone.
        apply consistent_update_child with (c_old := 0); auto; try lia.
        now rewrite Ec.
      * apply ForallNonRoot_set_child; [|exact Hw2].
        eapply ForallNonRoot_same_children; [|exact Hch]. reflexivity.
Qed.

(** ** Merge keeps the statistics consistent *)

Lemma consistent_set_child_same_count n tok c c' :
  consistent n -> child n tok = Some c -> count c' = count c ->
  consistent (set_child n tok c').
Proof.
  intros [H1 H2 H3 H4 H5] Hc Hcnt.
  constructor; cbn [set_child set_children stats_set count sum_ft sum_ft2
                    score children]; auto.
  - unfold sum_counts in *. rewrite (total_set_present _ _ _ _ Hc). lia.
  - unfold sum_squares in *. rewrite (total_set_present _ _ _ _ Hc).
    rewrite Hcnt. lia.
Qed.

Lemma put_at_wf p : forall n x l,
  get_at n p = Some l -> wf_node n -> wf_node x -> count x = count l ->
  wf_node (put_at n p x) /\ count (put_at n p x) = count n.
Proof.
  induction p as [|t p IH]; intros n x l Hget Hn Hx Hcnt; simpl in *.
  - inversion Hget; subst. auto.
  - destruct (child n t) as [c|] eqn:Ec; [|discriminate].
    assert (Hc : wf_node c)
      by (eapply ForallNodes_child; [exact Hn|apply child_In; exact Ec]).
    destruct (IH c x l Hget Hc Hx Hcnt) as [Hw Hk].
    split; [|reflexivity].
    constructor.
    + apply consistent_set_child_same_count with (c := c);
        [exact (ForallNodes_here Hn)|exact Ec|exact Hk].
    + apply ForallNonRoot_set_child; [|exact Hw].
      intros t' c' Hin. eapply ForallNodes_child; [exact Hn|exact Hin].
Qed.

Lemma put_at_trie_consistent p root x l :
  get_at root p = Some l ->
  ForallNonRoot consistent root ->
  (is_nil p = false -> consistent x) -> ForallNonRoot consistent x ->
  count x = count l ->
  ForallNonRoot consistent (put_at root p x).
Proof.
  destruct p as [|t p]; simpl; intros Hget Hroot Hx Hxc Hcnt; [exact Hxc|].
  destruct (child root t) as [c|] eqn:Ec; [|discriminate].
  apply ForallNonRoot_set_child; [exact Hroot|].
  apply (put_at_wf p Hget); auto.
  - apply (Hroot t). now apply child_In.
  - constructor; auto.
Qed.

Lemma get_at_trie_consistent p root l :
  get_at root p = Some l ->
  ForallNonRoot consistent root ->
  (is_nil p = false -> consistent l) /\ ForallNonRoot consistent l.
Proof.
  revert root. induction p as [|t p IH]; simpl; intros root Hget Hroot.
  - inversion Hget; subst. split; [discriminate|exact Hroot].
  - destruct (child root t) as [c|] eqn:Ec; [|discriminate].
    assert (Hc : wf_node c) by (apply (Hroot t); now apply child_In).
    destruct p as [|t' p].
    + simpl in Hget. inversion Hget; subst. split.
      * intros _. exact (ForallNodes_here Hc).
      * intros t' c' Hin. eapply ForallNodes_child; eauto.
    + destruct (IH c Hget) as [H1 H2].
      * intros t'' c' Hin. eapply ForallNodes_child; eauto.
      * split; [intros _; now apply H1|exact H2].
Qed.

Lemma update_likelihood_set_child n tok c cnt increment :
  update_likelihood (set_child n tok c) cnt increment
  = set_child (update_likelihood n cnt increment) tok c.
Proof. reflexivity. Qed.

(** The [for] loop of [update] keeps [lnode] consistent with its children,
    leaves its count alone, and queues only nodes of the other trie. *)
Lemma merge_children_consistent rchildren : forall p lnode lfs queue,
  (is_nil p = false -> consistent lnode) ->
  ForallNonRoot consistent lnode ->
  (forall t c, In (t, c) rchildren -> wf_node c) ->
  Forall (fun e => ForallNonRoot consistent (snd e)) queue ->
  let '(lnode', _, queue') := merge_children p lnode rchildren lfs queue in
  (is_nil p = false -> consistent lnode') /\
  ForallNonRoot consistent lnode' /\
  count lnode' = count lnode /\
  Forall (fun e => ForallNonRoot consistent (snd e)) queue'.
Proof.
  induction rchildren as [|[tok ch] rest IH]; intros p lnode lfs queue Hl Hlc Hr Hq.
  - simpl. auto.
  - cbn [merge_children]. cbv zeta.
    assert (Hch : wf_node ch) by (apply (Hr tok); now left).
    assert (Hrest : forall t c, In (t, c) rest -> wf_node c)
      by (intros; eapply Hr; right; eauto).
    pose proof (cons_count (ForallNodes_here Hch)) as Hpos.
    destruct (child lnode tok) as [current|] eqn:Ec.
    + (* the token is in both tries *)
      assert (Hcur : wf_node current)
        by (apply (Hlc tok); now apply child_In).
      set (current1 := increment_count current (count ch)).
      assert (Hcur1 : wf_node current1).
      { constructor.
        - apply consistent_increment_count; [lia|exact (ForallNodes_here Hcur)].
        - intros t c Hin. eapply ForallNodes_child; [exact Hcur|exact Hin]. }
      match goal with |- context [merge_children p ?l rest ?f ?q] =>
        specialize (IH p l f q); destruct (merge_children p l rest f q)
          as [[lnode' lfs'] queue'] end.
      destruct IH as (I1 & I2 & I3 & I4).
      * destruct (is_nil p) eqn:Ep; [discriminate|]. intros _.
        rewrite update_likelihood_set_child.
        apply consistent_update_child with (c_old := count current);
          auto; try lia.
        now rewrite Ec.
      * destruct (is_nil p); apply ForallNonRoot_set_child; auto.
      * exact Hrest.
      * apply Forall_app. split; [exact Hq|]. constructor; [|constructor].
        simpl. intros t c Hin. eapply ForallNodes_child; [exact Hch|exact Hin].
      * split; [exact I1|]. split; [exact I2|]. split; [|exact I4].
        rewrite I3. now destruct (is_nil p).
    + (* the token is only in the other trie *)
      assert (Hg : wf_node (graft ch)).
      { inversion Hch as [? [G1 G2 G3 G4 G5] Hsub]; subst.
        constructor; [now constructor|exact Hsub]. }
      change (count ch) with (count (graft ch)).
      match goal with |- context [merge_children p ?l rest ?f ?q] =>
        specialize (IH p l f q); destruct (merge_children p l rest f q)
          as [[lnode' lfs'] queue'] end.
      destruct IH as (I1 & I2 & I3 & I4).
      * destruct (is_nil p) eqn:Ep; [discriminate|]. intros _.
        rewrite update_likelihood_set_child.
        apply consistent_update_child with (c_old := 0);
          [auto|auto|simpl; lia|simpl; lia|now rewrite Ec].
      * destruct (is_nil p); apply ForallNonRoot_set_child; auto.
      * exact Hrest.
      * exact Hq.
      * split; [exact I1|]. split; [exact I2|]. split; [|exact I4].
        rewrite I3. now destruct (is_nil p).
Qed.

(** The [while] loop of [update] keeps every non-root node consistent. *)
Lemma update_loop_consistent fuel : forall root lfs queue,
  ForallNonRoot consistent root ->
  Forall (fun e => ForallNonRoot consistent (snd e)) queue ->
  ForallNonRoot consistent (fst (fst (update_loop fuel root lfs queue))).
Proof.
  induction fuel as [|fuel IH]; intros root lfs queue Hroot Hq; [exact Hroot|].
  cbn [update_loop].
  destruct queue as [|[p rnode] queue']; [exact Hroot|].
  destruct (get_at root p) as [lnode|] eqn:Eg; [|exact Hroot].
  inversion Hq as [|? ? Hr Hq']; subst. cbn [snd] in Hr.
  destruct (@get_at_trie_consistent p root lnode Eg Hroot) as [Hl Hlc].
  pose proof (@merge_children_consistent (children rnode) p lnode lfs
                queue' Hl Hlc Hr Hq') as Hm.
  destruct (merge_children p lnode (children rnode) lfs queue')
    as [[lnode' lfs'] queue''].
  destruct Hm as (M1 & M2 & M3 & M4).
  apply IH; [|exact M4].
  eapply put_at_trie_consistent; eauto.
Qed.

(** ** Invariants of reachable miners *)

Lemma _add_consistent {S} `{WatchfulStemmer S} (m : AdeftMiner S) tokens :
  ForallNonRoot consistent (_internal_trie m) ->
  ForallNonRoot consistent (_internal_trie (_add m tokens)).
Proof.
  intros Hm. unfold _add.
  destruct (stem_all (_stemmer m) tokens) as [stems st].
  pose proof (@_add_walk_consistent (rev stems) true (_internal_trie m)
                (_longforms m)) as Hw.
  destruct (_add_walk true (_internal_trie m) (rev stems) (_longforms m))
    as [root lfs].
  apply Hw; [discriminate|exact Hm].
Qed.

Lemma add_fragments_consistent {S} `{WatchfulStemmer S} `{CandidateExtractor}
    fragments : forall m : AdeftMiner S,
  ForallNonRoot consistent (_internal_trie m) ->
  ForallNonRoot consistent (_internal_trie (add_fragments m fragments)).
Proof.
  induction fragments as [|f fs IH]; intros m Hm; [exact Hm|].
  simpl. apply IH. destruct (is_empty_string f); [exact Hm|].
  now apply _add_consistent.
Qed.

Lemma process_each_consistent {S} `{WatchfulStemmer S} `{CandidateExtractor}
    texts : forall m : AdeftMiner S,
  ForallNonRoot consistent (_internal_trie m) ->
  ForallNonRoot consistent (_internal_trie (process_each m texts)).
Proof.
  induction texts as [|t ts IH]; intros m Hm; [exact Hm|].
  simpl. apply IH. now apply add_fragments_consistent.
Qed.

Lemma update_consistent {S} `{WatchfulStemmer S} (m other : AdeftMiner S) :
  ForallNonRoot consistent (_internal_trie m) ->
  ForallNonRoot consistent (_internal_trie other) ->
  ForallNonRoot consistent (_internal_trie (update m other)).
Proof.
  intros Hm Ho. unfold update.
  match goal with |- context [update_loop ?f ?r ?l ?q] =>
    pose proof (@update_loop_consistent f r l q Hm) as Hu;
    destruct (update_loop f r l q) as [[root lfs'] q'] end.
  apply Hu. constructor; [exact Ho|constructor].
Qed.




(** ** Flags under merge *)

Lemma update_fields {S} `{WatchfulStemmer S} (self other : AdeftMiner S) :
  shortform (update self other) = shortform self /\
  window (update self other) = window self /\
  _alignment_scores_computed (update self other)
  = _alignment_scores_computed self /\
  _scores_propagated (update self other) = _scores_propagated self.
Proof.
  unfold update.
  destruct (update_loop _ _ _ _) as [[root lfs'] q]. simpl. auto.
Qed.

(** C9.  [process_texts] sets both staleness flags to [False]; [update]
    assigns neither flag, so a miner whose flags are [True] keeps them
    [True] after a merge that changed its trie. *)
Theorem C9_update_keeps_flags {S} `{WatchfulStemmer S} `{CandidateExtractor}
    (m other : AdeftMiner S) (texts : list string) :
  (_alignment_scores_computed (process_texts m texts) = false /\
   _scores_propagated (process_texts m texts) = false) /\
  (_alignment_scores_computed (update (flags_set m) other) = true /\
   _scores_propagated (update (flags_set m) other) = true).
Proof.
  split; [split; reflexivity|].
  destruct (update_fields (flags_set m) other) as (_ & _ & Ha & Hp).
  rewrite Ha, Hp. split; reflexivity.
Qed.

(** ** Score propagation *)

(** C3.  With two leaves [a] and [b] under the root, the pass sets
    [best_descendent_score] on [b], the last node it popped, and leaves [a]
    at the initial [-1] although the score of [a] is [1]. *)
Theorem C3_only_last_leaf_gets_best_descendent :
  match get_at (_propagate_scores two_leaf_trie) ["a"%string],
        get_at (_propagate_scores two_leaf_trie) ["b"%string] with
  | Some a, Some b =>
      best_descendent_score b = best_score_below b /\
      best_descendent_score a = Int (-1) /\
      best_score_below a = Int 1 /\
      num_eqb (best_descendent_score a) (best_score_below a) = false
  | _, _ => False
  end.
Proof. vm_compute. repeat split; discriminate. Qed.


(** ** Extraction of local maxima *)

Lemma Qltb_true a b : Qltb a b = true <-> (a < b)%Q.
Proof.
  unfold Qltb. rewrite negb_true_iff. split.
  - intros H. apply Qnot_le_lt. intros L. apply Qle_bool_iff in L. congruence.
  - intros H. destruct (Qle_bool b a) eqn:E; [|reflexivity].
    apply Qle_bool_iff in E. exfalso. exact (Qlt_not_le _ _ H E).
Qed.

Lemma Qltb_false a b : Qltb a b = false <-> (b <= a)%Q.
Proof. unfold Qltb. rewrite negb_false_iff. apply Qle_bool_iff. Qed.

Lemma value_ltb_irrefl a : value_ltb a a = false.
Proof.
  destruct a; simpl; try reflexivity. apply Qltb_false. apply Qle_refl.
Qed.

Lemma value_ltb_trans a b c :
  value_ltb a b = true -> value_ltb b c = true -> value_ltb a c = true.
Proof.
  destruct a, b, c; simpl; try congruence.
  rewrite !Qltb_true. apply Qlt_trans.
Qed.

Lemma num_gtb_irrefl a : num_gtb a a = false.
Proof. apply value_ltb_irrefl. Qed.

Lemma num_gtb_trans a b c :
  num_gtb a b = true -> num_gtb b c = true -> num_gtb a c = true.
Proof.
  unfold num_gtb, num_ltb. intros H1 H2. exact (value_ltb_trans _ _ _ H2 H1).
Qed.





(** Of two numbers that are not NaN, one not greater than the other is less
    than or equal to it. *)
Lemma num_not_gtb_leb a b :
  is_nan a = false -> is_nan b = false ->
  num_gtb a b = false -> num_leb a b = true.
Proof.
  unfold is_nan, num_gtb, num_leb, num_ltb, num_eqb.
  destruct (num_value a) as [| |x|], (num_value b) as [| |y|]; simpl;
    try congruence.
  intros _ _ H. apply Qltb_false in H.
  destruct (Qltb x y) eqn:E; [reflexivity|]. simpl.
  apply Qltb_false in E. apply Qeq_bool_iff. now apply Qle_antisym.
Qed.

Lemma num_leb_not_gtb a b : num_leb a b = true -> num_gtb a b = false.
Proof.
  unfold num_gtb, num_leb, num_ltb, num_eqb.
  destruct (num_value a) as [| |x|], (num_value b) as [| |y|]; simpl;
    try congruence.
  intros H. apply Qltb_false. apply orb_true_iff in H. destruct H as [H|H].
  - apply Qltb_true in H. now apply Qlt_le_weak.
  - apply Qeq_bool_iff in H. rewrite H. apply Qle_refl.
Qed.

Lemma bind_Ok A B (r : result A) (k : A -> result B) b :
  bind r k = Ok b -> exists a, r = Ok a /\ k a = Ok b.
Proof. destruct r; simpl; [eauto|discriminate]. Qed.

Lemma _get_longform_helper_eq score_func is_root n :
  _get_longform_helper score_func is_root n =
  match children n with
  | [] => own_entry score_func n
  | _ :: _ =>
      bind (over_children score_func (_get_longform_helper score_func false)
              is_root n (children n) [])
        (fun res => match res with
                    | [] => own_entry score_func n
                    | _ :: _ => Ok res
                    end)
  end.
Proof.
  destruct n as [lf ss c s s2 sc cs a ba bd pe]. simpl.
  destruct cs as [|[t0 c0] cs]; reflexivity.
Qed.

Lemma keep_better_root score_func n cl :
  keep_better score_func true n cl = Ok cl.
Proof. induction cl as [|e cl IH]; simpl; [reflexivity|now rewrite IH]. Qed.

Lemma keep_better_inner score_func n cl kept :
  keep_better score_func false n cl = Ok kept ->
  (cl = [] /\ kept = []) \/
  exists v, score_func n = Ok v /\
    kept = kept_above (fst v) cl.
Proof.
  revert kept. induction cl as [|e cl IH]; simpl; intros kept H.
  - left. split; congruence.
  - right. apply bind_Ok in H. destruct H as (v & Hv & H).
    apply bind_Ok in H. destruct H as (r & Hr & H).
    exists v. split; [exact Hv|].
    destruct (IH _ Hr) as [[-> ->]|(v' & Hv' & ->)].
    + unfold kept_above. simpl. destruct (num_gtb _ _); congruence.
    + assert (v' = v) by congruence. subst v'. unfold kept_above in *. simpl.
      destruct (num_gtb (entry_score e) (fst v)); congruence.
Qed.

Lemma over_children_Ok score_func helper is_root n cs acc res :
  over_children score_func helper is_root n cs acc = Ok res ->
  exists kepts,
    res = acc ++ List.concat kepts /\
    Forall2 (fun tc kept => exists cl, helper (snd tc) = Ok cl /\
               keep_better score_func is_root n cl = Ok kept) cs kepts.
Proof.
  revert acc. induction cs as [|[t c] cs IH]; simpl; intros acc H.
  - exists []. simpl. rewrite app_nil_r. split; [congruence|constructor].
  - apply bind_Ok in H. destruct H as (cl & Hcl & H).
    apply bind_Ok in H. destruct H as (kept & Hk & H).
    destruct (IH _ H) as (kepts & -> & HF).
    exists (kept :: kepts). simpl. rewrite app_assoc. split; [reflexivity|].
    constructor; [|exact HF]. exists cl. now split.
Qed.

Lemma Forall2_In_right A B (R : A -> B -> Prop) l1 l2 b :
  Forall2 R l1 l2 -> In b l2 -> exists a, In a l1 /\ R a b.
Proof.
  induction 1 as [|x y l1 l2 Hxy _ IH]; intros Hin; [destruct Hin|].
  destruct Hin as [<-|Hin].
  - exists x. split; [now left|exact Hxy].
  - destruct (IH Hin) as (a & Ha & HR). exists a. split; [now right|exact HR].
Qed.

Lemma Forall2_In_left A B (R : A -> B -> Prop) l1 l2 a :
  Forall2 R l1 l2 -> In a l1 -> exists b, In b l2 /\ R a b.
Proof.
  induction 1 as [|x y l1 l2 Hxy _ IH]; intros Hin; [destruct Hin|].
  destruct Hin as [<-|Hin].
  - exists y. split; [now left|exact Hxy].
  - destruct (IH Hin) as (b & Hb & HR). exists b. split; [now right|exact HR].
Qed.

Lemma concat_nil_In A (ls : list (list A)) l :
  List.concat ls = [] -> In l ls -> l = [].
Proof.
  induction ls as [|l0 ls IH]; simpl; intros E Hin; [destruct Hin|].
  apply app_eq_nil in E. destruct E as [E1 E2].
  destruct Hin as [<-|Hin]; [exact E1|exact (IH E2 Hin)].
Qed.

Lemma helper_shape_bound score_func n r :
  helper_shape score_func n r ->
  exists v e, score_func n = Ok v /\ In e r /\
    (entry_score e = fst v \/ num_gtb (entry_score e) (fst v) = true).
Proof.
  intros (v & Hv & [[-> _]|(_ & Hne & Hall)]).
  - exists v, (longform n, fst v, snd v). split; [exact Hv|].
    split; [now left|now left].
  - destruct r as [|e r]; [congruence|]. exists v, e. split; [exact Hv|].
    split; [now left|]. right. apply Hall. now left.
Qed.

Lemma emitted_child score_func n t c e :
  In (t, c) (children n) -> emitted score_func c e -> emitted score_func n e.
Proof.
  intros Hin (n0 & v & Hd & Hv & He & Hm). exists n0, v.
  split; [exact (@descendant_child n0 n t c Hin Hd)|]. now split.
Qed.

Lemma helper_nonroot score_func n :
  forall r, _get_longform_helper score_func false n = Ok r ->
    helper_shape score_func n r /\ forall e, In e r -> emitted score_func n e.
Proof.
  induction n as [n IH] using node_children_ind. intros r H.
  rewrite _get_longform_helper_eq in H.
  destruct (children n) as [|tc0 cs0] eqn:Ec.
  - apply bind_Ok in H. destruct H as (v & Hv & H).
    assert (r = [(longform n, fst v, snd v)]) as -> by congruence.
    assert (Hm : local_maximum score_func n (fst v)) by (now left).
    split.
    + exists v. split; [exact Hv|]. left. now split.
    + intros e [<-|[]]. exists n, v. split; [constructor|]. now split.
  - apply bind_Ok in H. destruct H as (res & Hover & H).
    apply over_children_Ok in Hover. destruct Hover as (kepts & Hres & HF).
    simpl in Hres. rewrite <- Ec in HF. rewrite <- Ec in IH.
    (* the value of [n] has been computed for the first child *)
    assert (Hv : exists v, score_func n = Ok v).
    { assert (Hin : In tc0 (children n)) by (rewrite Ec; now left).
      destruct (@Forall2_In_left _ _ _ _ _ _ HF Hin) as (kept & _ & cl & Hcl & Hk).
      destruct tc0 as [t0 c0].
      destruct (IH _ _ Hin _ Hcl) as [Hs _].
      destruct (@helper_shape_bound _ _ _ Hs) as (_ & e & _ & He & _).
      destruct (@keep_better_inner _ _ _ _ Hk) as [[-> _]|(v & Hv & _)];
        [destruct He|eauto]. }
    destruct Hv as (v & Hv).
    assert (Hkept : forall tc kept,
               In tc (children n) ->
               (exists cl, _get_longform_helper score_func false (snd tc) = Ok cl /\
                           keep_better score_func false n cl = Ok kept) ->
               exists cl, _get_longform_helper score_func false (snd tc) = Ok cl /\
                 kept = kept_above (fst v) cl).
    { intros tc kept Hin (cl & Hcl & Hk). exists cl. split; [exact Hcl|].
      destruct (@keep_better_inner _ _ _ _ Hk) as [[-> ->]|(v' & Hv' & ->)];
        [reflexivity|].
      assert (v' = v) by congruence. now subst v'. }
    destruct res as [|e0 res].
    + (* nothing from below passes: the node itself *)
      apply bind_Ok in H. destruct H as (v' & Hv' & H).
      assert (v' = v) by congruence. subst v'.
      assert (r = [(longform n, fst v, snd v)]) as -> by congruence.
      assert (Hm : local_maximum score_func n (fst v)).
      { right. intros t c Hin.
        destruct (@Forall2_In_left _ _ _ _ _ _ HF Hin) as (kept & Hkin & Hex).
        destruct (Hkept _ _ Hin Hex) as (cl & Hcl & Hk). simpl in Hcl.
        assert (Hnil : kept = []).
        { apply (@concat_nil_In _ kepts); [congruence|exact Hkin]. }
        rewrite Hnil in Hk.
        destruct (IH _ _ Hin _ Hcl) as [Hs _].
        destruct (@helper_shape_bound _ _ _ Hs) as (vc & e & Hvc & He & Hle).
        exists vc. split; [exact Hvc|].
        assert (Hout : num_gtb (entry_score e) (fst v) = false).
        { destruct (num_gtb (entry_score e) (fst v)) eqn:Eg; [|reflexivity].
          assert (Hf : In e (kept_above (fst v) cl))
            by (apply filter_In; now split).
          rewrite <- Hk in Hf. destruct Hf. }
        destruct (num_gtb (fst vc) (fst v)) eqn:Eg; [|reflexivity].
        destruct Hle as [Hle|Hle]; [congruence|].
        rewrite (num_gtb_trans _ _ _ Hle Eg) in Hout. discriminate. }
      split.
      * exists v. split; [exact Hv|]. left. now split.
      * intros e [<-|[]]. exists n, v. split; [constructor|]. now split.
    + assert (r = List.concat kepts) as -> by congruence.
      assert (Hin_r : forall e, In e (List.concat kepts) ->
                 exists t c cl, In (t, c) (children n) /\
                   _get_longform_helper score_func false c = Ok cl /\
                   In e cl /\ num_gtb (entry_score e) (fst v) = true).
      { intros e He. apply in_concat in He. destruct He as (kept & Hkin & He).
        destruct (@Forall2_In_right _ _ _ _ _ _ HF Hkin) as ([t c] & Hin & Hex).
        destruct (Hkept _ _ Hin Hex) as (cl & Hcl & ->).
        apply filter_In in He. destruct He as [He Hg].
        exists t, c, cl. now repeat split. }
      split.
      * exists v. split; [exact Hv|]. right.
        split; [rewrite Ec; discriminate|].
        split; [rewrite <- Hres; discriminate|].
        intros e He. destruct (Hin_r _ He) as (_ & _ & _ & _ & _ & _ & Hg).
        exact Hg.
      * intros e He. destruct (Hin_r _ He) as (t & c & cl & Hin & Hcl & Hecl & _).
        destruct (IH _ _ Hin _ Hcl) as [_ Hem].
        exact (@emitted_child _ _ _ _ _ Hin (Hem _ Hecl)).
Qed.

(** ** [get_longforms] before any text *)

(** C7.  On a freshly constructed miner [get_longforms] raises
    [AttributeError] for the root's missing [count], whatever its arguments,
    where [top] returns the empty list. *)
Theorem C7_get_longforms_fresh_miner_raises {S} `{WatchfulStemmer S}
    {scorer : AlignmentBasedScorer} (np_exp : number -> number) (sf : string)
    (w : Z) (cutoff smoothing_param : number) (max_length : max_length_arg)
    (use_abs : bool) (abs_decay_param : number) (limit : option Z) :
  snd (get_longforms np_exp (new_miner sf w) cutoff smoothing_param max_length
         use_abs abs_decay_param)
  = Raise (AttributeError "count")
  /\ snd (get_longforms np_exp (new_miner sf w) cutoff smoothing_param
            max_length use_abs abs_decay_param) <> Ok []
  /\ top (new_miner sf w) limit = [].
Proof.
  assert (E : snd (get_longforms np_exp (new_miner sf w) cutoff
                     smoothing_param max_length use_abs abs_decay_param)
              = Raise (AttributeError "count"))
    by (destruct use_abs; reflexivity).
  split; [exact E|]. split; [rewrite E; discriminate|reflexivity].
Qed.

Lemma insert_sorted_In A (leb : A -> A -> bool) x y l :
  In y (insert_sorted leb x l) <-> y = x \/ In y l.
Proof.
  induction l as [|z l IH]; simpl.
  - intuition congruence.
  - destruct (leb x z); simpl; [intuition congruence|].
    rewrite IH. intuition congruence.
Qed.

Lemma sorted_In A (leb : A -> A -> bool) y l :
  In y (sorted leb l) <-> In y l.
Proof.
  induction l as [|x l IH]; simpl; [tauto|].
  rewrite insert_sorted_In, IH. intuition congruence.
Qed.

Lemma helper_root score_func n r :
  _get_longform_helper score_func true n = Ok r ->
  forall e, In e r -> emitted score_func n e.
Proof.
  intros H. rewrite _get_longform_helper_eq in H.
  destruct (children n) as [|tc0 cs0] eqn:Ec.
  - apply bind_Ok in H. destruct H as (v & Hv & H).
    assert (r = [(longform n, fst v, snd v)]) as -> by congruence.
    intros e [<-|[]]. exists n, v. split; [constructor|].
    split; [exact Hv|]. split; [reflexivity|now left].
  - apply bind_Ok in H. destruct H as (res & Hover & H).
    apply over_children_Ok in Hover. destruct Hover as (kepts & Hres & HF).
    simpl in Hres. rewrite <- Ec in HF.
    assert (Hin_r : forall e, In e res ->
               exists t c cl, In (t, c) (children n) /\
                 _get_longform_helper score_func false c = Ok cl /\ In e cl).
    { intros e He. rewrite Hres in He. apply in_concat in He.
      destruct He as (kept & Hkin & He).
      destruct (@Forall2_In_right _ _ _ _ _ _ HF Hkin)
        as ([t c] & Hin & cl & Hcl & Hk).
      rewrite keep_better_root in Hk. exists t, c, cl.
      split; [exact Hin|]. split; [exact Hcl|congruence]. }
    destruct res as [|e0 res].
    + exfalso.
      assert (Hin : In tc0 (children n)) by (rewrite Ec; now left).
      destruct (@Forall2_In_left _ _ _ _ _ _ HF Hin)
        as (kept & Hkin & cl & Hcl & Hk).
      rewrite keep_better_root in Hk.
      destruct (helper_nonroot _ _ Hcl) as [Hs _].
      destruct (@helper_shape_bound _ _ _ Hs) as (_ & e & _ & He & _).
      assert (kept = []) by (apply (@concat_nil_In _ kepts); congruence).
      assert (cl = []) by congruence. subst cl. destruct He.
    + assert (r = e0 :: res) as -> by congruence.
      intros e He. destruct (Hin_r _ He) as (t & c & cl & Hin & Hcl & Hecl).
      destruct (helper_nonroot _ _ Hcl) as [_ Hem].
      exact (@emitted_child _ _ _ _ _ Hin (Hem _ Hecl)).
Qed.

Lemma get_longforms_result {S} `{WatchfulStemmer S}
    {scorer : AlignmentBasedScorer} (np_exp : number -> number)
    (self : AdeftMiner S) (cutoff smoothing_param : number)
    (max_length : max_length_arg) (use_abs : bool) (abs_decay_param : number) :
  let call := get_longforms np_exp self cutoff smoothing_param max_length
                use_abs abs_decay_param in
  let value :=
    if use_abs then score_func_blended np_exp smoothing_param abs_decay_param
    else score_func_acromine smoothing_param in
  exists limit,
    snd call =
    bind (_get_longform_helper value true (_internal_trie (fst call)))
      (fun longforms =>
         Ok (map (fun x : string * number * Z =>
                    (fst (fst x), snd x, snd (fst x)))
               (sorted longform_leb
                  (map (fun e : entry =>
                          (_make_readable (fst call) (fst (fst e)),
                           snd (fst e), snd e))
                     (filter (fun e : entry => within limit (fst (fst e)))
                        (filter (fun e => num_gtb (entry_score e) cutoff)
                           longforms)))))).
Proof. eexists. reflexivity. Qed.

Lemma kepts_of_children score_func n v cs kepts :
  score_func n = Ok v ->
  Forall2 (fun (tc : token * node) kept =>
             exists cl, _get_longform_helper score_func false (snd tc) = Ok cl /\
                        keep_better score_func false n cl = Ok kept) cs kepts ->
  exists cls,
    Forall2 (fun (tc : token * node) cl =>
               _get_longform_helper score_func false (snd tc) = Ok cl) cs cls /\
    kepts = map (kept_above (fst v)) cls.
Proof.
  intros Hv HF. induction HF as [|tc kept cs kepts (cl & Hcl & Hk) _ IH].
  - exists []. split; [constructor|reflexivity].
  - destruct IH as (cls & HF & ->). exists (cl :: cls).
    split; [now constructor|]. simpl. f_equal.
    destruct (@keep_better_inner _ _ _ _ Hk) as [[-> ->]|(v' & Hv' & ->)];
      [reflexivity|].
    assert (v' = v) by congruence. now subst v'.
Qed.

Lemma kept_above_all v cls e :
  In e (List.concat (map (kept_above v) cls)) ->
  num_gtb (entry_score e) v = true.
Proof.
  intros He. apply in_concat in He. destruct He as (kept & Hk & He).
  apply in_map_iff in Hk. destruct Hk as (cl & <- & _).
  apply filter_In in He. exact (proj2 He).
Qed.

(** What the helper returns for a node with children that is not the root:
    the triples its children return that pass the strict comparison with its
    own value, in the order of the children, or its own triple when none
    passes. *)
Lemma helper_internal score_func n r :
  children n <> [] ->
  _get_longform_helper score_func false n = Ok r ->
  exists v cls,
    score_func n = Ok v /\
    Forall2 (fun (tc : token * node) cl =>
               _get_longform_helper score_func false (snd tc) = Ok cl)
      (children n) cls /\
    let kept := List.concat (map (kept_above (fst v)) cls) in
    Forall (fun e => num_gtb (entry_score e) (fst v) = true) kept /\
    (kept = [] -> r = [(longform n, fst v, snd v)]) /\
    (kept <> [] -> r = kept) /\
    (In (longform n, fst v, snd v) r <-> kept = []).
Proof.
  intros Hne H. rewrite _get_longform_helper_eq in H.
  destruct (children n) as [|tc0 cs0] eqn:Ec; [congruence|].
  apply bind_Ok in H. destruct H as (res & Hover & H).
  apply over_children_Ok in Hover. destruct Hover as (kepts & Hres & HF).
  simpl in Hres. rewrite <- Ec in HF.
  assert (Hv : exists v, score_func n = Ok v).
  { assert (Hin : In tc0 (children n)) by (rewrite Ec; now left).
    destruct (@Forall2_In_left _ _ _ _ _ _ HF Hin) as (kept & _ & cl & Hcl & Hk).
    destruct (helper_nonroot _ _ Hcl) as [Hs _].
    destruct (@helper_shape_bound _ _ _ Hs) as (_ & e & _ & He & _).
    destruct (@keep_better_inner _ _ _ _ Hk) as [[-> _]|(v & Hv & _)];
      [destruct He|eauto]. }
  destruct Hv as (v & Hv).
  destruct (@kepts_of_children _ _ _ _ _ Hv HF) as (cls & Hcls & ->).
  exists v, cls. split; [exact Hv|]. split; [rewrite <- Ec; exact Hcls|].
  cbv zeta. rewrite <- Hres.
  assert (Hall : Forall (fun e => num_gtb (entry_score e) (fst v) = true) res).
  { apply Forall_forall. intros e He. rewrite Hres in He.
    exact (@kept_above_all _ _ _ He). }
  split; [exact Hall|].
  destruct res as [|e0 res].
  - apply bind_Ok in H. destruct H as (v' & Hv' & H).
    assert (v' = v) by congruence. subst v'.
    assert (r = [(longform n, fst v, snd v)]) as -> by congruence.
    split; [reflexivity|]. split; [congruence|].
    split; [reflexivity|]. intros _. now left.
  - assert (r = e0 :: res) as -> by congruence.
    split; [discriminate|]. split; [reflexivity|].
    split; [|discriminate]. intros Hin. exfalso.
    rewrite Forall_forall in Hall. specialize (Hall _ Hin).
    unfold entry_score in Hall. cbn [fst snd] in Hall.
    rewrite num_gtb_irrefl in Hall. discriminate.
Qed.

(** C5.  Every triple [get_longforms] returns is the readable longform, count
    and value of a node of the trie that is a leaf or whose children all have
    a value that does not exceed its own, which is a value less than or equal
    to its own unless one of the two is NaN; the value is the [score_func]
    the call chose.  And for that [score_func], what the helper returns for a
    node with children that is not the root is the concatenation, over its
    children, of the triples the helper returns for the child whose value is
    strictly greater than the node's own value, each of them thus strictly
    above it, or, exactly when no triple passes that comparison, the node's
    own triple alone. *)
Theorem C5_returned_longforms_are_local_maxima {S} `{WatchfulStemmer S}
    {scorer : AlignmentBasedScorer} (np_exp : number -> number)
    (self : AdeftMiner S) (cutoff smoothing_param : number)
    (max_length : max_length_arg) (use_abs : bool) (abs_decay_param : number) :
  let call := get_longforms np_exp self cutoff smoothing_param max_length
                use_abs abs_decay_param in
  let value :=
    if use_abs then score_func_blended np_exp smoothing_param abs_decay_param
    else score_func_acromine smoothing_param in
  (forall (out : list (string * Z * number)) (text : string) (cnt : Z)
          (s : number),
     snd call = Ok out ->
     In (text, cnt, s) out ->
     exists n0 v,
       descendant n0 (_internal_trie (fst call)) /\
       value n0 = Ok v /\
       text = _make_readable (fst call) (longform n0) /\
       cnt = snd v /\ s = fst v /\
       (children n0 = [] \/
        forall t c, In (t, c) (children n0) ->
          exists vc, value c = Ok vc /\
            num_gtb (fst vc) (fst v) = false /\
            (is_nan (fst vc) = false -> is_nan (fst v) = false ->
             num_leb (fst vc) (fst v) = true))) /\
  (forall (n : node) (r : list entry),
     children n <> [] ->
     _get_longform_helper value false n = Ok r ->
     exists v cls,
       value n = Ok v /\
       Forall2 (fun (tc : token * node) cl =>
                  _get_longform_helper value false (snd tc) = Ok cl)
         (children n) cls /\
       let kept := List.concat (map (kept_above (fst v)) cls) in
       Forall (fun e => num_gtb (entry_score e) (fst v) = true) kept /\
       (kept = [] -> r = [(longform n, fst v, snd v)]) /\
       (kept <> [] -> r = kept) /\
       (In (longform n, fst v, snd v) r <-> kept = [])).
Proof.
  intros call value. split.
  - intros out text cnt s Hcall Hin.
    destruct (get_longforms_result np_exp self cutoff smoothing_param
                max_length use_abs abs_decay_param) as (limit & E).
    fold call value in E. rewrite E in Hcall. clear E. clearbody call.
    apply bind_Ok in Hcall. destruct Hcall as (longforms & Hh & Hout).
    injection Hout as Hout. subst out.
    apply in_map_iff in Hin. destruct Hin as (x & Ex & Hx).
    apply sorted_In in Hx. apply in_map_iff in Hx.
    destruct Hx as (e & Ee & He).
    apply filter_In in He. destruct He as [He _].
    apply filter_In in He. destruct He as [He _].
    destruct (helper_root _ _ Hh _ He) as (n0 & v & Hd & Hv & Hev & Hm).
    exists n0, v. subst e x. cbn [fst snd] in Ex.
    split; [exact Hd|]. split; [exact Hv|].
    split; [congruence|]. split; [congruence|]. split; [congruence|].
    destruct Hm as [Hm|Hm]; [now left|right].
    intros t c Hin. destruct (Hm t c Hin) as (vc & Hvc & Hg).
    exists vc. split; [exact Hvc|]. split; [exact Hg|].
    intros N1 N2. now apply num_not_gtb_leb.
  - intros n r Hne Hr. exact (@helper_internal _ _ _ Hne Hr).
Qed.

Lemma C5_witness :
  let call := get_longforms (fun x => num_add (Int 1) x) two_shard_miner
                default_cutoff (Int 4) Auto false default_abs_decay_param in
  let value := score_func_acromine (Int 4) in
  let s := Float (S754_finite false 9007199254740990 (-55)) in
  snd call = Ok [("a"%string, 4, s)] /\
  (exists n0 v,
     descendant n0 (_internal_trie (fst call)) /\
     value n0 = Ok v /\
     "a"%string = _make_readable (fst call) (longform n0) /\
     4 = snd v /\ s = fst v /\
     (children n0 = [] \/
      forall t c, In (t, c) (children n0) ->
        exists vc, value c = Ok vc /\
          num_gtb (fst vc) (fst v) = false /\
          (is_nan (fst vc) = false -> is_nan (fst v) = false ->
           num_leb (fst vc) (fst v) = true))) /\
  (exists n r,
     child (_internal_trie (fst call)) "a"%string = Some n /\
     children n <> [] /\
     _get_longform_helper value false n = Ok r /\
     r = [(["a"%string], s, 4)] /\
     exists v cls,
       value n = Ok v /\
       Forall2 (fun (tc : token * node) cl =>
                  _get_longform_helper value false (snd tc) = Ok cl)
         (children n) cls /\
       let kept := List.concat (map (kept_above (fst v)) cls) in
       Forall (fun e => num_gtb (entry_score e) (fst v) = true) kept /\
       (kept = [] -> r = [(longform n, fst v, snd v)]) /\
       (kept <> [] -> r = kept) /\
       (In (longform n, fst v, snd v) r <-> kept = [])).
Proof.
  intros call value s.
  pose proof (@C5_returned_longforms_are_local_maxima unit _ _
                (fun x => num_add (Int 1) x) two_shard_miner default_cutoff
                (Int 4) Auto false default_abs_decay_param) as HC.
  cbv zeta in HC. fold call in HC. destruct HC as [A B].
  assert (Hcall : snd call = Ok [("a"%string, 4, s)])
    by (vm_compute; reflexivity).
  split; [exact Hcall|]. split.
  - exact (A _ _ _ _ Hcall (or_introl eq_refl)).
  - destruct (child (_internal_trie (fst call)) "a"%string) as [n|] eqn:E;
      [|vm_compute in E; discriminate].
    exists n, [(["a"%string], s, 4)]. split; [reflexivity|].
    assert (Hne : children n <> [])
      by (vm_compute in E; injection E as <-; discriminate).
    assert (Hr : _get_longform_helper value false n
                 = Ok [(["a"%string], s, 4)])
      by (vm_compute in E; injection E as <-; vm_compute; reflexivity).
    split; [exact Hne|]. split; [exact Hr|]. split; [reflexivity|].
    exact (B n _ Hne Hr).
Defined.

(** ** Addressing nodes by path *)

Lemma dict_set_set (d : list (token * node)) k a b :
  Dict.set string_dec (Dict.set string_dec d k a) k b = Dict.set string_dec d k b.
Proof.
  induction d as [|[k' v'] d IH]; simpl.
  - destruct (string_dec k k); [reflexivity|congruence].
  - destruct (string_dec k k') as [e|n]; simpl.
    + destruct (string_dec k k'); [reflexivity|congruence].
    + destruct (string_dec k k'); [congruence|]. now rewrite IH.
Qed.

Lemma dict_set_comm (d : list (token * node)) k1 k2 a b :
  k1 <> k2 ->
  Dict.get string_dec d k1 <> None ->
  Dict.set string_dec (Dict.set string_dec d k1 a) k2 b =
  Dict.set string_dec (Dict.set string_dec d k2 b) k1 a.
Proof.
  intros Hne. induction d as [|[k' v'] d IH]; simpl; [congruence|].
  destruct (string_dec k1 k') as [e1|n1]; destruct (string_dec k2 k') as [e2|n2];
    simpl; try congruence.
  - intros _. destruct (string_dec k2 k'); [congruence|].
    destruct (string_dec k1 k'); [reflexivity|congruence].
  - intros _. destruct (string_dec k2 k'); [|congruence].
    destruct (string_dec k1 k'); [congruence|reflexivity].
  - intros H. destruct (string_dec k2 k'); [congruence|].
    destruct (string_dec k1 k'); [congruence|]. now rewrite IH.
Qed.

Lemma child_set_child_same n t c : child (set_child n t c) t = Some c.
Proof. apply DictFacts.get_set_same. Qed.

Lemma child_set_child_other n t u c :
  u <> t -> child (set_child n t c) u = child n u.
Proof. apply DictFacts.get_set_other. Qed.

Lemma set_child_set_child n t a b :
  set_child (set_child n t a) t b = set_child n t b.
Proof.
  unfold set_child, set_children. cbn [children longform stats_set count sum_ft
    sum_ft2 score alignment_score best_ancestor_score best_descendent_score].
  now rewrite dict_set_set.
Qed.

Lemma set_child_comm n t u a b :
  t <> u -> child n t <> None ->
  set_child (set_child n t a) u b = set_child (set_child n u b) t a.
Proof.
  intros Hne Hc. unfold set_child, set_children.
  cbn [children longform stats_set count sum_ft sum_ft2 score alignment_score
       best_ancestor_score best_descendent_score].
  now rewrite dict_set_comm.
Qed.

Lemma incomparable_sym p : forall q, incomparable p q -> incomparable q p.
Proof.
  induction p as [|t p IH]; intros [|u q]; simpl; try tauto.
  intros [H|H]; [left; congruence|right; auto].
Qed.

Lemma incomparable_app_r p : forall q r, incomparable p q -> incomparable p (q ++ r).
Proof.
  induction p as [|t p IH]; intros [|u q] r; simpl; try tauto.
  intros [H|H]; [now left|right; auto].
Qed.

Lemma incomparable_siblings p t u : t <> u -> incomparable (p ++ [t]) (p ++ [u]).
Proof. intros Hne. induction p as [|v p IH]; simpl; [now left|now right]. Qed.

Lemma get_at_put_at_same p : forall r n x,
  get_at r p = Some n -> get_at (put_at r p x) p = Some x.
Proof.
  induction p as [|t p IH]; intros r n x; simpl; [reflexivity|].
  destruct (child r t) as [c|] eqn:Ec; [|discriminate]. intros Hg.
  simpl. rewrite child_set_child_same. eauto.
Qed.

Lemma get_at_put_at_other p : forall q r x,
  incomparable p q -> get_at (put_at r p x) q = get_at r q.
Proof.
  induction p as [|t p IH]; intros [|u q] r x; simpl; try tauto.
  intros Hinc. destruct (child r t) as [c|] eqn:Ec; [|reflexivity].
  destruct (string_dec u t) as [->|Hne].
  - rewrite child_set_child_same, Ec. apply IH.
    destruct Hinc as [Hinc|Hinc]; [congruence|exact Hinc].
  - now rewrite child_set_child_other.
Qed.

Lemma get_at_app p : forall r q,
  get_at r (p ++ q) =
  match get_at r p with Some n => get_at n q | None => None end.
Proof.
  induction p as [|t p IH]; intros r q; simpl; [reflexivity|].
  destruct (child r t); [apply IH|reflexivity].
Qed.

Lemma put_at_app p : forall r n q y,
  get_at r p = Some n -> put_at r (p ++ q) y = put_at r p (put_at n q y).
Proof.
  induction p as [|t p IH]; intros r n q y; simpl.
  - now intros [= ->].
  - destruct (child r t) as [c|]; [|discriminate]. intros Hg.
    now rewrite (IH _ _ _ _ Hg).
Qed.

Lemma put_at_put_at_same p : forall r n x y,
  get_at r p = Some n -> put_at (put_at r p x) p y = put_at r p y.
Proof.
  induction p as [|t p IH]; intros r n x y; simpl; [reflexivity|].
  destruct (child r t) as [c|] eqn:Ec; [|discriminate]. intros Hg.
  simpl. rewrite child_set_child_same, set_child_set_child.
  now rewrite (IH _ _ _ _ Hg).
Qed.

Lemma put_at_comm p : forall q r n m x y,
  incomparable p q -> get_at r p = Some n -> get_at r q = Some m ->
  put_at (put_at r p x) q y = put_at (put_at r q y) p x.
Proof.
  induction p as [|t p IH]; intros [|u q] r n m x y; simpl; try tauto.
  intros Hinc.
  destruct (child r t) as [c|] eqn:Ec; [|discriminate].
  destruct (child r u) as [d|] eqn:Ed; [|discriminate].
  intros Hp Hq. simpl.
  destruct (string_dec t u) as [->|Hne].
  - assert (d = c) by congruence. subst d.
    rewrite !child_set_child_same, !set_child_set_child.
    f_equal. destruct Hinc as [Hinc|Hinc]; [congruence|].
    exact (IH _ _ _ _ _ _ Hinc Hp Hq).
  - rewrite child_set_child_other by congruence.
    rewrite (@child_set_child_other r u t) by congruence.
    rewrite Ec, Ed. apply set_child_comm; congruence.
Qed.

Lemma dict_set_get (d : list (token * node)) k v :
  Dict.get string_dec d k = Some v -> Dict.set string_dec d k v = d.
Proof.
  induction d as [|[k' v'] d IH]; simpl; [discriminate|].
  destruct (string_dec k k') as [e|n]; [now intros [= ->]|].
  intros Hg. now rewrite IH.
Qed.

Lemma set_child_child n t c : child n t = Some c -> set_child n t c = n.
Proof.
  intros Hc. unfold set_child, set_children. unfold child in Hc.
  rewrite (dict_set_get _ _ Hc). now destruct n.
Qed.

Lemma put_at_get_at p : forall r n, get_at r p = Some n -> put_at r p n = r.
Proof.
  induction p as [|t p IH]; intros r n; simpl; [now intros [= ->]|].
  destruct (child r t) as [c|] eqn:Ec; [|discriminate]. intros Hg.
  rewrite (IH _ _ Hg). now apply set_child_child.
Qed.

Lemma antichain_app l1 : forall l2,
  antichain l1 -> antichain l2 ->
  (forall a b, In a l1 -> In b l2 -> incomparable a b) ->
  antichain (l1 ++ l2).
Proof.
  induction l1 as [|a l1 IH]; intros l2 H1 H2 H12; simpl; [exact H2|].
  destruct H1 as [Ha H1]. split.
  - apply Forall_app. split; [exact Ha|].
    apply Forall_forall. intros b Hb. apply H12; [now left|exact Hb].
  - apply IH; auto. intros a' b Ha' Hb. apply H12; [now right|exact Hb].
Qed.

Lemma antichain_siblings p (ts : list token) :
  NoDup ts -> antichain (map (fun t => p ++ [t]) ts).
Proof.
  induction 1 as [|t ts Hnin _ IH]; simpl; [exact I|]. split; [|exact IH].
  apply Forall_forall. intros q Hq. apply in_map_iff in Hq.
  destruct Hq as (u & <- & Hu). apply incomparable_siblings.
  intros ->. contradiction.
Qed.

(** ** Breadth-first traversal as a descent *)

Section BreadthFirstFacts.
Variable X : Type.
Variable visit : list token -> X -> node -> node * list (token * X).
Variable weight : X -> node -> nat.
Variable good : X -> node -> Prop.
Hypothesis Hvisit : visit_ok visit weight good.

Lemma drained_app l1 : forall root l2 root',
    drained visit root (l1 ++ l2) root' ->
    exists mid, drained visit root l1 mid /\ drained visit mid l2 root'.
Proof.
    induction l1 as [|[p x] l1 IH]; intros root l2 root' H; simpl in H.
    - exists root. split; [constructor|exact H].
    - inversion H as [|? ? ? ? n n'' ? Hg Hd Hr]; subst.
      destruct (IH _ _ _ Hr) as (mid & H1 & H2).
      exists mid. split; [|exact H2]. econstructor; eauto.
Qed.

Lemma drained_keeps p rest : forall root mid,
    drained visit root rest mid ->
    Forall (incomparable p) (map fst rest) ->
    get_at mid p = get_at root p.
Proof.
    induction rest as [|[q x] rest IH]; intros root mid H Hinc.
    - now inversion H.
    - inversion H as [|? ? ? ? n n'' ? Hg Hd Hr]; subst.
      simpl in Hinc. inversion Hinc as [|? ? Hq Hrest]; subst.
      rewrite (IH _ _ Hr Hrest).
      apply get_at_put_at_other. now apply incomparable_sym.
Qed.

Lemma drained_put p z rest : forall root mid n0,
    drained visit root rest mid ->
    Forall (incomparable p) (map fst rest) ->
    get_at root p = Some n0 ->
    drained visit (put_at root p z) rest (put_at mid p z).
Proof.
    induction rest as [|[q x] rest IH]; intros root mid n0 H Hinc Hp.
    - inversion H; subst. constructor.
    - inversion H as [|? ? ? ? n n'' ? Hg Hd Hr]; subst.
      simpl in Hinc. inversion Hinc as [|? ? Hq Hrest]; subst.
      apply drained_cons with (n := n) (n'' := n'').
      + now rewrite get_at_put_at_other.
      + exact Hd.
      + rewrite (@put_at_comm p q root n0 n z n'' Hq Hp Hg).
        apply IH with (n0 := n0); [exact Hr|exact Hrest|].
        rewrite get_at_put_at_other; [exact Hp|now apply incomparable_sym].
Qed.

Lemma drained_children p next : forall mid m root',
    get_at mid p = Some m ->
    drained visit mid (queued p next) root' ->
    exists m'', descent_children visit p next m m'' /\
                root' = put_at mid p m''.
Proof.
    induction next as [|[t y] next IH]; intros mid m root' Hm H; simpl in H.
    - inversion H; subst. exists m. split; [constructor|].
      symmetry. now apply put_at_get_at.
    - inversion H as [|? ? ? ? c c' ? Hg Hd Hr]; subst. cbn [fst snd] in *.
      rewrite get_at_app, Hm in Hg. simpl in Hg.
      destruct (child m t) as [c0|] eqn:Ec; [|discriminate].
      injection Hg as ->.
      rewrite (@put_at_app p mid m [t] c' Hm) in Hr. simpl in Hr.
      rewrite Ec in Hr.
      destruct (IH _ (set_child m t c') _
                  (@get_at_put_at_same p mid m _ Hm) Hr) as (m'' & Hdc & ->).
      exists m''. split.
      + econstructor; eauto.
      + now apply put_at_put_at_same with (n := m).
Qed.
End BreadthFirstFacts.

Section BreadthFirstDrains.
Variable X : Type.
Variable visit : list token -> X -> node -> node * list (token * X).
Variable weight : X -> node -> nat.
Variable good : X -> node -> Prop.
Hypothesis Hvisit : visit_ok visit weight good.

Lemma queue_weight_app root (l1 l2 : list (list token * X)) :
    queue_weight weight root (l1 ++ l2) =
    (queue_weight weight root l1 + queue_weight weight root l2)%nat.
Proof. unfold queue_weight. now rewrite map_app, list_sum_app. Qed.

Lemma queue_weight_put p z root (rest : list (list token * X)) :
    Forall (incomparable p) (map fst rest) ->
    queue_weight weight (put_at root p z) rest = queue_weight weight root rest.
Proof.
    unfold queue_weight. induction rest as [|[q x] rest IH]; simpl; intros H;
      [reflexivity|].
    inversion H as [|? ? Hq Hrest]; subst. rewrite (IH Hrest). f_equal.
    unfold entry_weight. cbn [fst snd]. now rewrite get_at_put_at_other.
Qed.

Lemma queue_weight_queued p root n (next : list (token * X)) :
    get_at root p = Some n ->
    queue_weight weight root (queued p next) =
    queue_weight weight n (queued [] next).
Proof.
    intros Hp. unfold queue_weight, queued. rewrite !map_map.
    f_equal. apply map_ext. intros [t y]. unfold entry_weight. cbn [fst snd].
    now rewrite get_at_app, Hp.
Qed.

Lemma queued_paths p (next : list (token * X)) :
    map fst (queued p next) = map (fun t => p ++ [t]) (map fst next).
Proof. unfold queued. now rewrite !map_map. Qed.

Lemma queue_ok_step root p x rest m n' next :
    queue_ok good root ((p, x) :: rest) ->
    get_at root p = Some m -> good x m ->
    visit p x m = (n', next) ->
    queue_ok good (put_at root p n') (rest ++ queued p next).
Proof.
    intros [Hanti Hall] Hp Hg Hv. simpl in Hanti. destruct Hanti as [Hinc Hanti].
    destruct (Hvisit Hg Hv) as (Hnd & Hkids & _).
    split.
    - rewrite map_app. apply antichain_app; [exact Hanti| |].
      + rewrite queued_paths. now apply antichain_siblings.
      + intros a b Ha Hb. rewrite queued_paths in Hb.
        apply in_map_iff in Hb. destruct Hb as (t & <- & _).
        apply incomparable_app_r. apply incomparable_sym.
        rewrite Forall_forall in Hinc. now apply Hinc.
    - intros q y Hin. apply in_app_or in Hin. destruct Hin as [Hin|Hin].
      + destruct (Hall q y (or_intror Hin)) as (k & Hk & Hgk).
        exists k. split; [|exact Hgk].
        rewrite get_at_put_at_other; [exact Hk|].
        rewrite Forall_forall in Hinc. apply Hinc.
        apply in_map_iff. exists (q, y). now split.
      + unfold queued in Hin. apply in_map_iff in Hin.
        destruct Hin as ([t y'] & [= <- <-] & Hin). cbn [fst snd].
        destruct (Hkids _ _ Hin) as (c & Hc & Hgc).
        exists c. split; [|exact Hgc].
        rewrite get_at_app, (@get_at_put_at_same p root m n' Hp).
        simpl. now rewrite Hc.
Qed.

  (** With fuel for the weight of the queue the loop empties it, and what it
      leaves is the descent from each entry. *)
Theorem bfs_loop_drains fuel : forall root queue last,
    queue_ok good root queue ->
    (queue_weight weight root queue <= fuel)%nat ->
    exists root' last',
      bfs_loop visit fuel root queue last = (root', [], last') /\
      drained visit root queue root'.
Proof.
    induction fuel as [|fuel IH]; intros root queue last Hok Hw.
    - destruct queue as [|[p x] rest].
      + exists root, last. split; [reflexivity|constructor].
      + exfalso. destruct Hok as [_ Hall].
        destruct (Hall p x (or_introl eq_refl)) as (m & Hp & Hg).
        destruct (visit p x m) as [n' next] eqn:Hv.
        destruct (Hvisit Hg Hv) as (_ & _ & Hlt).
        unfold queue_weight in Hw. simpl in Hw. unfold entry_weight in Hw at 1.
        cbn [fst snd] in Hw. rewrite Hp in Hw. lia.
    - destruct queue as [|[p x] rest].
      + exists root, last. split; [reflexivity|constructor].
      + pose proof Hok as [Hanti Hall].
        destruct (Hall p x (or_introl eq_refl)) as (m & Hp & Hg).
        simpl in Hanti. destruct Hanti as [Hinc _].
        destruct (visit p x m) as [n' next] eqn:Hv.
        pose proof (queue_ok_step Hok Hp Hg Hv) as Hok1.
        destruct (Hvisit Hg Hv) as (_ & _ & Hlt).
        assert (Hw1 : (queue_weight weight (put_at root p n')
                         (rest ++ queued p next) <= fuel)%nat).
        { rewrite queue_weight_app, (@queue_weight_put p n' root rest Hinc).
          rewrite (@queue_weight_queued p _ n' next
                     (@get_at_put_at_same p root m n' Hp)).
          unfold queue_weight in Hw. simpl in Hw.
          unfold entry_weight in Hw at 1. cbn [fst snd] in Hw.
          rewrite Hp in Hw. fold (queue_weight weight root rest) in Hw. lia. }
        destruct (IH _ _ p Hok1 Hw1) as (root' & last' & Hb & Hd).
        exists root', last'. split.
        * cbn [bfs_loop]. now rewrite Hp, Hv.
        * apply drained_app in Hd. destruct Hd as (mid & Hrest & Hk).
          assert (Hmid : get_at mid p = Some n').
          { rewrite (@drained_keeps _ _ p rest _ _ Hrest Hinc).
            exact (@get_at_put_at_same p root m n' Hp). }
          destruct (@drained_children _ _ p next mid n' root' Hmid Hk) as (m'' & Hdc & ->).
          apply drained_cons with (n := m) (n'' := m'');
            [exact Hp|econstructor; eauto|].
          rewrite <- (@put_at_put_at_same p root m n' m'' Hp).
          apply drained_put with (n0 := n'); [exact Hrest|exact Hinc|].
          exact (@get_at_put_at_same p root m n' Hp).
Qed.
End BreadthFirstDrains.

Lemma set_children_children n : set_children n (children n) = n.
Proof. now destruct n. Qed.

Lemma Forall2_dict_set (R R' : token * node -> token * node -> Prop)
    (d : list (token * node)) t c c' : forall d'',
  NoDup (map fst d) ->
  Dict.get string_dec d t = Some c ->
  Forall2 R' (Dict.set string_dec d t c') d'' ->
  (forall tc'', R' (t, c') tc'' -> R (t, c) tc'') ->
  (forall tc tc'', fst tc <> t -> R' tc tc'' -> R tc tc'') ->
  Forall2 R d d''.
Proof.
  induction d as [|[k v] d IH]; simpl; intros d'' Hnd Hg HF Hsame Hother;
    [discriminate|].
  inversion Hnd as [|? ? Hnin Hnd']; subst.
  destruct (string_dec t k) as [->|Hne].
  - injection Hg as ->. inversion HF as [|? tc'' ? l'' Hh Ht]; subst.
    constructor; [now apply Hsame|].
    clear - Ht Hother Hnin. revert l'' Ht.
    induction d as [|[k' v'] d IH]; intros l'' Ht; inversion Ht; subst;
      constructor.
    + apply Hother; [|assumption]. simpl. intros ->. apply Hnin. now left.
    + apply IH; [|assumption]. intros Hin. apply Hnin. now right.
  - inversion HF as [|? tc'' ? l'' Hh Ht]; subst.
    constructor; [apply Hother; [simpl; congruence|exact Hh]|].
    now apply IH.
Qed.

Section DescentFacts.
Variable X : Type.
Variable visit : list token -> X -> node -> node * list (token * X).

Lemma descent_children_spec p next m m'' :
    descent_children visit p next m m'' ->
    NoDup (map fst next) ->
    NoDup (map fst (children m)) ->
    m'' = set_children m (children m'') /\
    Forall2 (child_descent visit p next) (children m) (children m'').
Proof.
    induction 1 as [p n|p t y next n c c' n'' Hc Hd Hdc IH]; intros Hn Hk.
    - split; [now rewrite set_children_children|].
      generalize (children n). intros l.
      induction l as [|tc l IHl]; constructor; [|exact IHl].
      split; reflexivity.
    - inversion Hn as [|? ? Hnin Hn']; subst.
      assert (Hk' : NoDup (map fst (children (set_child n t c')))).
      { cbn [set_child set_children children].
        change (map fst (Dict.set string_dec (children n) t c'))
          with (Dict.keys (Dict.set string_dec (children n) t c')).
        rewrite DictFacts.keys_set_present; [exact Hk|].
        unfold child in Hc. congruence. }
      destruct (IH Hn' Hk') as [E HF]. split.
      + rewrite E at 1. now destruct n.
      + cbn [set_child set_children children] in HF.
        apply Forall2_dict_set with (R' := child_descent visit p next) (t := t)
                                    (c := c) (c' := c');
          [exact Hk|exact Hc|exact HF| |].
        * intros tc'' [E1 E2]. cbn [fst snd] in *. split; [exact E1|].
          cbn [Dict.get fst snd]. destruct (string_dec t t); [|congruence].
          destruct (Dict.get string_dec next t) as [y'|] eqn:Ey.
          -- exfalso. apply Hnin. apply DictFacts.get_In in Ey.
             apply in_map_iff. exists (t, y'). now split.
          -- now rewrite E2.
        * intros tc tc'' Hne [E1 E2]. split; [exact E1|].
          cbn [Dict.get fst snd].
          match goal with |- context [string_dec ?a ?b] =>
            destruct (string_dec a b) as [e|_] end;
            [exfalso; exact (Hne e)|exact E2].
Qed.
End DescentFacts.

(** ** Visits that rewrite and queue every child *)

Lemma node_size_children n : node_size n = S (children_size (children n)).
Proof.
  destruct n as [lf ss c s s2 sc cs a ba bd pe]. cbn [node_size children].
  f_equal. unfold children_size.
  induction cs as [|[t c0] cs IH]; [reflexivity|]. simpl. now rewrite IH.
Qed.


Lemma dict_get_key (V : Type) (d : list (token * V)) t :
  In t (map fst d) -> exists v, Dict.get string_dec d t = Some v /\ In (t, v) d.
Proof.
  induction d as [|[k v] d IH]; simpl; [tauto|].
  destruct (string_dec t k) as [->|Hne].
  - intros _. exists v. split; [reflexivity|now left].
  - intros [E|Hin]; [congruence|].
    destruct (IH Hin) as (v' & Hg & Hi). exists v'. split; [exact Hg|now right].
Qed.

Lemma keys_map (V W : Type) (h : token -> V -> W) (d : list (token * V)) :
  map fst (map (fun tc => (fst tc, h (fst tc) (snd tc))) d) = map fst d.
Proof. rewrite map_map. reflexivity. Qed.


Lemma well_keyed_same_children a b :
  children b = children a -> well_keyed a -> well_keyed b.
Proof.
  intros E Ha. inversion Ha as [? H1 H2]; subst. constructor.
  - unfold unique_keys in *. now rewrite E.
  - rewrite E. exact H2.
Qed.


(** ** The first pass of [_propagate_scores] *)


(** ** The second pass of [_propagate_scores] *)





(** ** Invariants that each node keeps on its own *)

(** A property of single nodes that fresh nodes have and that no mutation of
    the mining core breaks holds of every node of every reachable trie. *)
Section LocalInvariant.
Variable P : node -> Prop.
Hypothesis P_new : forall lf, P (new_node lf).
Hypothesis P_increment : forall n k, P n -> P (increment_count n k).
Hypothesis P_likelihood : forall n a b, P n -> P (update_likelihood n a b).
Hypothesis P_set_child : forall n t c, P n -> P (set_child n t c).
Hypothesis P_graft : forall n, P n -> P (graft n).

Lemma ForallNodes_set_child n t c :
    ForallNodes P n -> ForallNodes P c -> ForallNodes P (set_child n t c).
Proof.
    intros Hn Hc. inversion Hn as [? H1 H2]; subst. constructor.
    - now apply P_set_child.
    - intros t0 c0 Hin. cbn [set_child set_children children] in Hin.
      destruct (In_dict_set _ _ _ _ _ Hin) as [[= -> ->]|Hold];
        [exact Hc|exact (H2 _ _ Hold)].
Qed.

Lemma ForallNodes_increment n k :
    ForallNodes P n -> ForallNodes P (increment_count n k).
Proof.
    intros Hn. inversion Hn as [? H1 H2]; subst. constructor;
      [now apply P_increment|exact H2].
Qed.

Lemma ForallNodes_likelihood n a b :
    ForallNodes P n -> ForallNodes P (update_likelihood n a b).
Proof.
    intros Hn. inversion Hn as [? H1 H2]; subst. constructor;
      [now apply P_likelihood|exact H2].
Qed.

Lemma ForallNodes_graft n : ForallNodes P n -> ForallNodes P (graft n).
Proof.
    intros Hn. inversion Hn as [? H1 H2]; subst. constructor;
      [now apply P_graft|exact H2].
Qed.

Lemma ForallNodes_new lf : ForallNodes P (new_node lf).
Proof.
    constructor; [apply P_new|]. intros t c Hin.
    destruct lf; destruct Hin.
Qed.

Lemma _add_walk_local tokens : forall is_root current lfs,
    ForallNodes P current ->
    ForallNodes P (fst (_add_walk is_root current tokens lfs)).
Proof.
    induction tokens as [|tok rest IH]; intros is_root current lfs Hc;
      [exact Hc|].
    cbn [_add_walk]. cbv zeta.
    destruct (child current tok) as [c|] eqn:Ec.
    - match goal with |- context [_add_walk false ?a rest ?l] =>
        pose proof (IH false a l) as Hw;
        destruct (_add_walk false a rest l) as [c2 lfs3] end.
      cbn [fst] in *. apply ForallNodes_set_child.
      + destruct is_root; [exact Hc|now apply ForallNodes_likelihood].
      + apply Hw. apply ForallNodes_increment.
        exact (@ForallNodes_child _ _ _ _ Hc (child_In _ _ Ec)).
    - match goal with |- context [_add_walk false ?a rest ?l] =>
        pose proof (IH false a l) as Hw;
        destruct (_add_walk false a rest l) as [c2 lfs3] end.
      cbn [fst] in *. apply ForallNodes_set_child.
      + destruct is_root; [exact Hc|now apply ForallNodes_likelihood].
      + apply Hw. apply ForallNodes_new.
Qed.

Lemma get_at_local p : forall r n,
    get_at r p = Some n -> ForallNodes P r -> ForallNodes P n.
Proof.
    induction p as [|t p IH]; intros r n; simpl; [now intros [= ->]|].
    destruct (child r t) as [c|] eqn:Ec; [|discriminate]. intros Hg Hr.
    apply (IH _ _ Hg). exact (@ForallNodes_child _ _ _ _ Hr (child_In _ _ Ec)).
Qed.

Lemma put_at_local p : forall r x,
    ForallNodes P r -> ForallNodes P x -> ForallNodes P (put_at r p x).
Proof.
    induction p as [|t p IH]; intros r x Hr Hx; simpl; [exact Hx|].
    destruct (child r t) as [c|] eqn:Ec; [|exact Hr].
    apply ForallNodes_set_child; [exact Hr|]. apply IH; [|exact Hx].
    exact (@ForallNodes_child _ _ _ _ Hr (child_In _ _ Ec)).
Qed.

Lemma merge_children_local rchildren : forall p lnode lfs queue,
    ForallNodes P lnode ->
    (forall t c, In (t, c) rchildren -> ForallNodes P c) ->
    Forall (fun e => ForallNodes P (snd e)) queue ->
    let '(lnode', _, queue') := merge_children p lnode rchildren lfs queue in
    ForallNodes P lnode' /\ Forall (fun e => ForallNodes P (snd e)) queue'.
Proof.
    induction rchildren as [|[tok ch] rest IH]; intros p lnode lfs queue Hl Hr Hq.
    - simpl. auto.
    - cbn [merge_children]. cbv zeta.
      assert (Hch : ForallNodes P ch) by (apply (Hr tok); now left).
      assert (Hrest : forall t c, In (t, c) rest -> ForallNodes P c)
        by (intros t c Hin; apply (Hr t); now right).
      destruct (child lnode tok) as [current|] eqn:Ec.
      + apply IH; [|exact Hrest|].
        * assert (H1 : ForallNodes P
                    (set_child lnode tok (increment_count current (count ch)))).
          { apply ForallNodes_set_child; [exact Hl|].
            apply ForallNodes_increment.
            exact (@ForallNodes_child _ _ _ _ Hl (child_In _ _ Ec)). }
          destruct (is_nil p); [exact H1|now apply ForallNodes_likelihood].
        * apply Forall_app. split; [exact Hq|]. constructor; [exact Hch|constructor].
      + apply IH; [|exact Hrest|exact Hq].
        assert (H1 : ForallNodes P (set_child lnode tok (graft ch)))
          by (apply ForallNodes_set_child;
              [exact Hl|now apply ForallNodes_graft]).
        destruct (is_nil p); [exact H1|now apply ForallNodes_likelihood].
Qed.

Lemma update_loop_local fuel : forall root lfs queue,
    ForallNodes P root ->
    Forall (fun e => ForallNodes P (snd e)) queue ->
    ForallNodes P (fst (fst (update_loop fuel root lfs queue))).
Proof.
    induction fuel as [|fuel IH]; intros root lfs queue Hroot Hq; [exact Hroot|].
    cbn [update_loop].
    destruct queue as [|[p rnode] queue']; [exact Hroot|].
    destruct (get_at root p) as [lnode|] eqn:Eg; [|exact Hroot].
    inversion Hq as [|? ? Hr Hq']; subst. cbn [snd] in Hr.
    pose proof (@merge_children_local (children rnode) p lnode lfs queue'
                  (get_at_local _ Eg Hroot)
                  (fun t c Hin => @ForallNodes_child _ _ _ _ Hr Hin) Hq') as Hm.
    destruct (merge_children p lnode (children rnode) lfs queue')
      as [[lnode' lfs'] queue''].
    destruct Hm as [M1 M2]. apply IH; [|exact M2].
    now apply put_at_local.
Qed.

Theorem reachable_local {S} `{WatchfulStemmer S} `{CandidateExtractor}
      (m : AdeftMiner S) :
    reachable m -> ForallNodes P (_internal_trie m).
Proof.
    induction 1 as [sf w|m texts _ IH|m other _ IHm _ IHo].
    - apply ForallNodes_new.
    - unfold process_texts. cbn [_internal_trie].
      revert m IH. induction texts as [|text ts IHt]; intros m IH; [exact IH|].
      cbn [process_each]. apply IHt.
      generalize (get_candidate_fragments text (shortform m) (window m)).
      intros fragments. revert m IH.
      induction fragments as [|f fs IHf]; intros m IH; [exact IH|].
      cbn [add_fragments]. apply IHf. destruct (is_empty_string f); [exact IH|].
      unfold _add. destruct (stem_all (_stemmer m) (get_candidate f)) as [stems st].
      pose proof (@_add_walk_local (rev stems) true (_internal_trie m)
                    (_longforms m) IH) as Hw.
      destruct (_add_walk true (_internal_trie m) (rev stems) (_longforms m)).
      exact Hw.
    - unfold update.
      match goal with |- context [update_loop ?f ?r ?l ?q] =>
        pose proof (@update_loop_local f r l q IHm) as Hu;
        destruct (update_loop f r l q) as [[root lfs'] q'] end.
      apply Hu. constructor; [exact IHo|constructor].
Qed.
End LocalInvariant.

(** ** Shape of reachable tries *)

Lemma unique_keys_set_child n t c : unique_keys n -> unique_keys (set_child n t c).
Proof.
  unfold unique_keys. cbn [set_child set_children children]. intros Hk.
  change (NoDup (Dict.keys (Dict.set string_dec (children n) t c))).
  destruct (Dict.get string_dec (children n) t) as [c0|] eqn:Eg.
  - rewrite DictFacts.keys_set_present; [exact Hk|congruence].
  - rewrite (DictFacts.set_absent string_dec _ _ c Eg).
    unfold Dict.keys. rewrite map_app. simpl.
    apply NoDup_app_remove_l with (l := []). simpl.
    apply Permutation_NoDup with (l := t :: map fst (children n)).
    + apply Permutation_cons_append.
    + constructor; [|exact Hk]. now apply DictFacts.get_None_notin in Eg.
Qed.

Lemma reachable_well_keyed {S} `{WatchfulStemmer S} `{CandidateExtractor}
    (m : AdeftMiner S) :
  reachable m -> well_keyed (_internal_trie m).
Proof.
  apply reachable_local.
  - intros lf. unfold unique_keys. destruct lf; constructor.
  - intros n k Hn. exact Hn.
  - intros n a b Hn. exact Hn.
  - intros n t c. apply unique_keys_set_child.
  - intros n Hn. exact Hn.
Qed.

Lemma reachable_untouched {S} `{WatchfulStemmer S} `{CandidateExtractor}
    (m : AdeftMiner S) :
  reachable m ->
  ForallNodes (fun n => best_ancestor_score n = Int (-1) /\
                        best_descendent_score n = Int (-1) /\
                        alignment_score n = Int 0) (_internal_trie m).
Proof.
  apply reachable_local.
  - intros lf. destruct lf; repeat split.
  - intros n k Hn. exact Hn.
  - intros n a b Hn. exact Hn.
  - intros n t c Hn. exact Hn.
  - intros n Hn. exact Hn.
Qed.



(** ** [update] as a breadth-first traversal *)

Lemma merge_children_trie rchildren : forall p lnode lfs queue,
  fst (fst (merge_children p lnode rchildren lfs queue)) =
    fst (merge_trie (is_nil p) lnode rchildren) /\
  snd (merge_children p lnode rchildren lfs queue) =
    queue ++ queued p (snd (merge_trie (is_nil p) lnode rchildren)).
Proof.
  induction rchildren as [|[tok ch] rest IH]; intros p lnode lfs queue.
  - simpl. now rewrite app_nil_r.
  - cbn [merge_children merge_trie]. cbv zeta.
    destruct (child lnode tok) as [current|].
    + match goal with |- context [merge_children p ?l rest ?f ?q] =>
        destruct (IH p l f q) as [E1 E2] end.
      rewrite E1, E2.
      destruct (merge_trie (is_nil p) _ rest) as [lnode' next].
      cbn [fst snd queued map]. split; [reflexivity|].
      now rewrite <- app_assoc.
    + apply IH.
Qed.

Lemma update_loop_bfs fuel : forall root lfs queue last,
  fst (fst (update_loop fuel root lfs queue)) =
    fst (fst (bfs_loop visit_update fuel root queue last)) /\
  snd (update_loop fuel root lfs queue) =
    snd (fst (bfs_loop visit_update fuel root queue last)).
Proof.
  induction fuel as [|fuel IH]; intros root lfs queue last; [now split|].
  cbn [update_loop bfs_loop].
  destruct queue as [|[p rnode] queue']; [now split|].
  destruct (get_at root p) as [lnode|]; [|now split].
  destruct (merge_children_trie (children rnode) p lnode lfs queue')
    as [E1 E2].
  destruct (merge_children p lnode (children rnode) lfs queue')
    as [[lnode' lfs'] queue''].
  cbn [fst snd] in E1, E2. unfold visit_update.
  destruct (merge_trie (is_nil p) lnode (children rnode)) as [l2 next].
  cbn [fst snd] in E1, E2. subst. apply IH.
Qed.

Lemma child_update_likelihood n a b t :
  child (update_likelihood n a b) t = child n t.
Proof. reflexivity. Qed.

(** The slots of the node after the loop. *)
Lemma merge_trie_fields is_root rchildren : forall lnode,
  let lnode' := fst (merge_trie is_root lnode rchildren) in
  longform lnode' = longform lnode /\
  stats_set lnode' = stats_set lnode /\
  count lnode' = count lnode /\
  best_ancestor_score lnode' = best_ancestor_score lnode /\
  best_descendent_score lnode' = best_descendent_score lnode /\
  alignment_score lnode' = alignment_score lnode /\
  parent_elsewhere lnode' = parent_elsewhere lnode /\
  sum_ft lnode' =
    sum_ft lnode + (if is_root then 0 else sum_counts rchildren).
Proof.
  induction rchildren as [|[tok ch] rest IH]; intros lnode.
  - simpl. repeat split; destruct is_root; unfold sum_counts; simpl; lia.
  - cbn [merge_trie]. cbv zeta.
    destruct (child lnode tok) as [current|].
    + match goal with |- context [merge_trie is_root ?l rest] =>
        specialize (IH l); destruct (merge_trie is_root l rest)
          as [lnode' next] end.
      cbn [fst] in *. destruct IH as (I1 & I2 & I3 & I4 & I5 & I6 & I7 & I8).
      rewrite I1, I2, I3, I4, I5, I6, I7, I8.
      unfold sum_counts. rewrite total_cons. cbn [snd].
      destruct is_root; simpl; repeat split; lia.
    + match goal with |- context [merge_trie is_root ?l rest] =>
        specialize (IH l); destruct (merge_trie is_root l rest)
          as [lnode' next] end.
      cbn [fst] in *. destruct IH as (I1 & I2 & I3 & I4 & I5 & I6 & I7 & I8).
      rewrite I1, I2, I3, I4, I5, I6, I7, I8.
      unfold sum_counts. rewrite total_cons. cbn [snd].
      destruct is_root; simpl; repeat split; lia.
Qed.

(** The children of the node after the loop, token by token. *)
Lemma merge_trie_child is_root rchildren : forall lnode t,
  NoDup (map fst rchildren) ->
  child (fst (merge_trie is_root lnode rchildren)) t =
  match child lnode t, Dict.get string_dec rchildren t with
  | Some c, Some ch => Some (increment_count c (count ch))
  | Some c, None => Some c
  | None, Some ch => Some (graft ch)
  | None, None => None
  end.
Proof.
  induction rchildren as [|[tok ch] rest IH]; intros lnode t Hnd.
  - simpl. now destruct (child lnode t).
  - inversion Hnd as [|? ? Hnin Hnd']; subst.
    cbn [merge_trie Dict.get]. cbv zeta.
    assert (Hrest : t = tok -> Dict.get string_dec rest t = None).
    { intros ->. destruct (Dict.get string_dec rest tok) as [v|] eqn:E;
        [|reflexivity].
      exfalso. apply Hnin. apply DictFacts.get_In in E.
      apply in_map_iff. exists (tok, v). now split. }
    destruct (child lnode tok) as [current|] eqn:Ec.
    + match goal with |- context [merge_trie is_root ?l rest] =>
        specialize (IH l t Hnd'); destruct (merge_trie is_root l rest)
          as [lnode' next] end.
      cbn [fst] in *. rewrite IH.
      destruct (string_dec t tok) as [->|Hne].
      * rewrite (Hrest eq_refl), Ec.
        destruct is_root; [|rewrite child_update_likelihood];
          now rewrite child_set_child_same.
      * destruct is_root; [|rewrite child_update_likelihood];
          now rewrite child_set_child_other.
    + match goal with |- context [merge_trie is_root ?l rest] =>
        specialize (IH l t Hnd'); destruct (merge_trie is_root l rest)
          as [lnode' next] end.
      cbn [fst] in *. rewrite IH.
      destruct (string_dec t tok) as [->|Hne].
      * rewrite (Hrest eq_refl), Ec.
        destruct is_root; [|rewrite child_update_likelihood];
          now rewrite child_set_child_same.
      * destruct is_root; [|rewrite child_update_likelihood];
          now rewrite child_set_child_other.
Qed.

(** The children queued: those of the other node whose token the node had. *)
Lemma merge_trie_next is_root rchildren : forall lnode,
  let next := snd (merge_trie is_root lnode rchildren) in
  (children_size next <= children_size rchildren)%nat /\
  (NoDup (map fst rchildren) ->
   (forall t y, In (t, y) next ->
      In (t, y) rchildren /\ child lnode t <> None) /\
   NoDup (map fst next) /\
   (forall t,
      Dict.get string_dec next t =
      match child lnode t with
      | Some _ => Dict.get string_dec rchildren t
      | None => None
      end)).
Proof.
  induction rchildren as [|[tok ch] rest IH]; intros lnode.
  - simpl. split; [lia|]. intros _. split; [intros t y []|].
    split; [constructor|]. intros t. now destruct (child lnode t).
  - cbn [merge_trie]. cbv zeta.
    assert (Hother : forall l t, t <> tok ->
              child (if is_root then set_child lnode tok l
                     else update_likelihood (set_child lnode tok l)
                            (count l) (count ch)) t = child lnode t).
    { intros l t Hne. destruct is_root; [|rewrite child_update_likelihood];
        now rewrite child_set_child_other. }
    assert (Hfresh : forall y, ~ In tok (map fst rest) -> ~ In (tok, y) rest).
    { intros y Hnin Hin. apply Hnin. apply in_map_iff. exists (tok, y).
      now split. }
    destruct (child lnode tok) as [current|] eqn:Ec.
    + match goal with |- context [merge_trie is_root ?l rest] =>
        pose proof (IH l) as IHl; destruct (merge_trie is_root l rest)
          as [lnode' next] end.
      cbn [snd] in *. destruct IHl as (I3 & IHl).
      split; [unfold children_size in *; simpl; lia|].
      intros Hnd. inversion Hnd as [|? ? Hnin Hnd']; subst.
      destruct (IHl Hnd') as (I1 & I2 & I4).
      split; [|split].
      * intros t y [[= <- <-]|Hin]; [split; [now left|congruence]|].
        destruct (I1 _ _ Hin) as [Hr Hc]. split; [now right|].
        destruct (string_dec t tok) as [->|Hne]; [congruence|].
        now rewrite (Hother _ _ Hne) in Hc.
      * simpl. constructor; [|exact I2].
        intros Hin. apply in_map_iff in Hin.
        destruct Hin as ([t y] & E & Hin). cbn [fst] in E. subst t.
        destruct (I1 _ _ Hin) as [Hr _]. exact (Hfresh y Hnin Hr).
      * intros t. cbn [Dict.get]. destruct (string_dec t tok) as [->|Hne].
        -- now rewrite Ec.
        -- rewrite (I4 t). now rewrite (Hother _ _ Hne).
    + change (count ch) with (count (graft ch)) in *.
      match goal with |- context [merge_trie is_root ?l rest] =>
        pose proof (IH l) as IHl; destruct (merge_trie is_root l rest)
          as [lnode' next] end.
      cbn [snd] in *. destruct IHl as (I3 & IHl).
      split; [unfold children_size in *; simpl; lia|].
      intros Hnd. inversion Hnd as [|? ? Hnin Hnd']; subst.
      destruct (IHl Hnd') as (I1 & I2 & I4).
      split; [|split].
      * intros t y Hin. destruct (I1 _ _ Hin) as [Hr Hc]. split; [now right|].
        destruct (string_dec t tok) as [->|Hne].
        -- exfalso. exact (Hfresh y Hnin Hr).
        -- now rewrite (Hother _ _ Hne) in Hc.
      * exact I2.
      * intros t. cbn [Dict.get]. destruct (string_dec t tok) as [->|Hne].
        -- rewrite (I4 tok).
           assert (E : Dict.get string_dec rest tok = None).
           { destruct (Dict.get string_dec rest tok) as [v|] eqn:E;
               [|reflexivity].
             exfalso. apply DictFacts.get_In in E. exact (Hfresh v Hnin E). }
           rewrite E, Ec.
           match goal with |- context [child ?n tok] =>
             destruct (child n tok) end; reflexivity.
        -- rewrite (I4 t). now rewrite (Hother _ _ Hne).
Qed.

Lemma queue_weight_payload (n' : node) (next : list (token * node)) :
  (queue_weight (fun (x : node) (_ : node) => node_size x) n' (queued [] next)
   <= children_size next)%nat.
Proof.
  unfold queue_weight, queued, children_size. rewrite map_map.
  induction next as [|[t y] next IH]; simpl; [lia|]. simpl in IH.
  unfold entry_weight at 1. cbn [fst snd].
  destruct (get_at n' [t]); lia.
Qed.

Lemma visit_update_ok :
  visit_ok visit_update (fun x _ => node_size x)
    (fun x n => well_keyed x /\ well_keyed n).
Proof.
  intros p x n n' next [Hx Hn] Hv. unfold visit_update in Hv.
  pose proof (ForallNodes_here Hx) as Hkx. unfold unique_keys in Hkx.
  pose proof (merge_trie_next (is_nil p) (children x) n) as Hnext.
  pose proof (fun t => @merge_trie_child (is_nil p) (children x) n t Hkx)
    as Hchild.
  rewrite Hv in Hnext, Hchild. cbn [fst snd] in Hnext, Hchild.
  destruct Hnext as (Hsize & Hnext). destruct (Hnext Hkx) as (Hin & Hnd & _).
  split; [exact Hnd|]. split.
  - intros t y Hy. destruct (Hin _ _ Hy) as [Hr Hc].
    destruct (child n t) as [c0|] eqn:Ec; [|congruence].
    exists (increment_count c0 (count y)). split.
    + rewrite Hchild, Ec.
      now rewrite (DictFacts.In_get_NoDup string_dec _ _ _ Hkx Hr).
    + split; [exact (@ForallNodes_child _ _ _ _ Hx Hr)|].
      apply well_keyed_same_children with (a := c0); [reflexivity|].
      exact (@ForallNodes_child _ _ _ _ Hn (child_In _ _ Ec)).
  - pose proof (queue_weight_payload n' next) as Hw.
    rewrite (node_size_children x). lia.
Qed.

(** The trie that [update] leaves is the descent from the two roots. *)
Lemma update_descent {S} `{WatchfulStemmer S} (self other : AdeftMiner S) :
  well_keyed (_internal_trie self) -> well_keyed (_internal_trie other) ->
  descent visit_update [] (_internal_trie other) (_internal_trie self)
    (_internal_trie (update self other)).
Proof.
  intros Hs Ho. unfold update.
  match goal with |- context [update_loop ?f ?r ?l ?q] =>
    destruct (update_loop_bfs f r l q []) as [E _];
    destruct (update_loop f r l q) as [[root lfs'] q'] end.
  cbn [fst _internal_trie] in *. subst root.
  destruct (@bfs_loop_drains node visit_update _ _ visit_update_ok
              (node_size (_internal_trie other)) (_internal_trie self)
              [([], _internal_trie other)] [])
    as (root1 & last & Hb & Hd).
  - split; [simpl; auto|]. intros q x [[= <- <-]|[]].
    exists (_internal_trie self). now split.
  - unfold queue_weight, entry_weight. simpl. lia.
  - rewrite Hb. cbn [fst].
    inversion Hd as [|? ? ? ? n n'' ? Hg Hdesc Hrest]; subst.
    inversion Hrest; subst. simpl in Hg. injection Hg as <-. exact Hdesc.
Qed.

Lemma merge_trie_well_keyed (p : list token) lnode rchildren :
  well_keyed lnode ->
  (forall t c, In (t, c) rchildren -> well_keyed c) ->
  well_keyed (fst (merge_trie (is_nil p) lnode rchildren)).
Proof.
  intros Hl Hr.
  destruct (merge_children_trie rchildren p lnode [] []) as [E _].
  rewrite <- E.
  pose proof (@merge_children_local unique_keys
                (fun n k Hn => Hn) (fun n a b Hn => Hn)
                (fun n t c Hn => unique_keys_set_child t c Hn)
                (fun n Hn => Hn)
                rchildren p lnode [] [] Hl Hr (Forall_nil _)) as Hm.
  destruct (merge_children p lnode rchildren [] []) as [[lnode' lfs'] q'].
  exact (proj1 Hm).
Qed.

(** ** Merging miners built for different shortforms *)










(** ** The counts of the children add up to at most the count of the node *)

Lemma ForallNodes_bounded_same n n' :
  sum_ft n' = sum_ft n -> count n' = count n -> children n' = children n ->
  ForallNodes bounded n -> ForallNodes bounded n'.
Proof.
  intros E1 E2 E3 Hn. inversion Hn as [? H1 H2]; subst. constructor.
  - unfold bounded in *. lia.
  - rewrite E3. exact H2.
Qed.

Lemma descent_update_bounded n'' : forall p x n,
  descent visit_update p x n n'' ->
  well_keyed x -> well_keyed n ->
  (forall t c, In (t, c) (children x) ->
     ForallNodes consistent c /\ ForallNodes bounded c) ->
  (forall t c, In (t, c) (children n) -> ForallNodes bounded c) ->
  (is_nil p = false ->
     sum_ft x = sum_counts (children x) /\ sum_ft n + sum_ft x <= count n) ->
  (forall t c, In (t, c) (children n'') -> ForallNodes bounded c) /\
  (is_nil p = false -> bounded n'').
Proof.
  induction n'' as [n'' IH] using node_children_ind.
  intros p x n Hd Hkx Hkn Hx Hn Hp.
  inversion Hd as [? ? ? n' next ? Hv Hdc]; subst. unfold visit_update in Hv.
  pose proof (ForallNodes_here Hkx) as Ux. unfold unique_keys in Ux.
  pose proof (merge_trie_next (is_nil p) (children x) n) as Hnext.
  pose proof (fun t => @merge_trie_child (is_nil p) (children x) n t Ux)
    as Hchild.
  pose proof (merge_trie_fields (is_nil p) (children x) n) as Hf.
  assert (Hkn' : well_keyed (fst (merge_trie (is_nil p) n (children x))))
    by (apply merge_trie_well_keyed;
        [exact Hkn|intros t c Hin; exact (@ForallNodes_child _ _ _ _ Hkx Hin)]).
  rewrite Hv in Hnext, Hchild, Hf, Hkn'. cbn [fst snd] in *.
  destruct Hnext as (_ & Hnext). destruct (Hnext Ux) as (_ & Hnd & Hget).
  pose proof (ForallNodes_here Hkn') as Un'.
  destruct (descent_children_spec Hdc Hnd Un') as [E HF].
  destruct Hf as (_ & _ & Fc & _ & _ & _ & _ & Fs).
  split.
  - intros t c'' Hin.
    destruct (@Forall2_In_right _ _ _ _ _ _ HF Hin) as ([t' c'] & Hin' & E1 & E2).
    cbn [fst snd] in E1, E2. subst t'.
    pose proof (DictFacts.In_get_NoDup string_dec _ _ _ Un' Hin') as Hc'.
    fold (child n' t) in Hc'. rewrite Hchild in Hc'. rewrite Hget in E2.
    destruct (child n t) as [c|] eqn:Ec.
    + pose proof (Hn _ _ (child_In _ _ Ec)) as Bc.
      destruct (Dict.get string_dec (children x) t) as [ch|] eqn:Er.
      * injection Hc' as <-.
        pose proof (DictFacts.get_In _ _ _ Er) as Hch.
        destruct (Hx _ _ Hch) as [Cch Bch].
        assert (Hsub : (forall t0 c0, In (t0, c0) (children c'') ->
                          ForallNodes bounded c0) /\
                       (is_nil ((p ++ [t])) = false -> bounded c'')).
        { apply (IH _ _ Hin (p ++ [t]) ch (increment_count c (count ch)) E2).
          - exact (@ForallNodes_child _ _ _ _ Hkx Hch).
          - apply well_keyed_same_children with (a := c); [reflexivity|].
            exact (@ForallNodes_child _ _ _ _ Hkn (child_In _ _ Ec)).
          - intros t0 c0 Hin0. split.
            + exact (@ForallNodes_child _ _ _ _ Cch Hin0).
            + exact (@ForallNodes_child _ _ _ _ Bch Hin0).
          - intros t0 c0 Hin0. exact (@ForallNodes_child _ _ _ _ Bc Hin0).
          - intros _. split.
            + exact (cons_sum_ft (ForallNodes_here Cch)).
            + pose proof (ForallNodes_here Bc) as B1.
              pose proof (ForallNodes_here Bch) as B2.
              unfold bounded in *. simpl. lia. }
        destruct Hsub as [S1 S2]. constructor; [|exact S1].
        apply S2. now destruct p.
      * injection Hc' as <-. now subst c''.
    + destruct (Dict.get string_dec (children x) t) as [ch|] eqn:Er;
        [|discriminate].
      injection Hc' as <-. subst c''.
      pose proof (DictFacts.get_In _ _ _ Er) as Hch.
      destruct (Hx _ _ Hch) as [_ Bch].
      now apply ForallNodes_bounded_same with (n := ch).
  - intros Hnil. destruct (Hp Hnil) as [P1 P2].
    unfold bounded. rewrite E. cbn [set_children sum_ft count].
    rewrite Fs, Fc, Hnil. lia.
Qed.

Lemma _add_walk_bounded tokens : forall is_root current lfs,
  (is_root = false -> sum_ft current < count current) ->
  (forall t c, In (t, c) (children current) -> ForallNodes bounded c) ->
  let current' := fst (_add_walk is_root current tokens lfs) in
  (is_root = false -> bounded current') /\
  (forall t c, In (t, c) (children current') -> ForallNodes bounded c).
Proof.
  induction tokens as [|tok rest IH]; intros is_root current lfs Hc Hch.
  - simpl. split; [|exact Hch]. intros Hr. unfold bounded.
    specialize (Hc Hr). lia.
  - cbn [_add_walk]. cbv zeta.
    destruct (child current tok) as [c|] eqn:Ec.
    + pose proof (Hch _ _ (child_In _ _ Ec)) as Bc.
      pose proof (ForallNodes_here Bc) as Bc0. unfold bounded in Bc0.
      match goal with |- context [_add_walk false ?a rest ?l] =>
        pose proof (IH false a l) as Hw;
        destruct (_add_walk false a rest l) as [c2 lfs3] end.
      cbn [fst] in *.
      destruct Hw as [W1 W2].
      { intros _. simpl. lia. }
      { intros t0 c0 Hin. exact (@ForallNodes_child _ _ _ _ Bc Hin). }
      split.
      * intros Hr. specialize (Hc Hr). subst is_root. unfold bounded.
        simpl. lia.
      * intros t0 c0 Hin. cbn [set_child set_children children] in Hin.
        destruct (In_dict_set _ _ _ _ _ Hin) as [[= -> ->]|Hold].
        -- constructor; [now apply W1|exact W2].
        -- apply (Hch t0). now destruct is_root.
    + match goal with |- context [_add_walk false ?a rest ?l] =>
        pose proof (IH false a l) as Hw;
        destruct (_add_walk false a rest l) as [c2 lfs3] end.
      cbn [fst] in *. rewrite new_node_nonroot in Hw.
      destruct Hw as [W1 W2].
      { intros _. simpl. lia. }
      { intros t0 c0 []. }
      split.
      * intros Hr. specialize (Hc Hr). subst is_root. unfold bounded.
        simpl. lia.
      * intros t0 c0 Hin. cbn [set_child set_children children] in Hin.
        destruct (In_dict_set _ _ _ _ _ Hin) as [[= -> ->]|Hold].
        -- constructor; [now apply W1|exact W2].
        -- apply (Hch t0). now destruct is_root.
Qed.

Lemma reachable_consistent {S} `{WatchfulStemmer S} `{CandidateExtractor}
    (m : AdeftMiner S) :
  reachable m -> ForallNonRoot consistent (_internal_trie m).
Proof.
  induction 1 as [sf w|m texts _ IH|m other _ IHm _ IHo].
  - intros t c [].
  - apply (@process_each_consistent _ _ _ texts m IH).
  - now apply update_consistent.
Qed.

Lemma reachable_bounded {S} `{WatchfulStemmer S} `{CandidateExtractor}
    (m : AdeftMiner S) :
  reachable m -> ForallNonRoot bounded (_internal_trie m).
Proof.
  induction 1 as [sf w|m texts Hm IH|m other Hm IHm Ho IHo].
  - intros t c [].
  - unfold process_texts. cbn [_internal_trie]. clear Hm.
    revert m IH. induction texts as [|text ts IHt]; intros m IH; [exact IH|].
    cbn [process_each]. apply IHt.
    generalize (get_candidate_fragments text (shortform m) (window m)).
    intros fragments. revert m IH.
    induction fragments as [|f fs IHf]; intros m IH; [exact IH|].
    cbn [add_fragments]. apply IHf. destruct (is_empty_string f); [exact IH|].
    unfold _add. destruct (stem_all (_stemmer m) (get_candidate f)) as [stems st].
    pose proof (@_add_walk_bounded (rev stems) true (_internal_trie m)
                  (_longforms m)) as Hw.
    destruct (_add_walk true (_internal_trie m) (rev stems) (_longforms m)).
    cbn [_internal_trie fst] in *.
    exact (proj2 (Hw (fun E => False_ind _ (diff_true_false E)) IH)).
  - pose proof (@update_descent _ _ m other (reachable_well_keyed Hm)
                  (reachable_well_keyed Ho)) as Hd.
    pose proof (reachable_consistent Ho) as Co.
    destruct (@descent_update_bounded _ _ _ _ Hd (reachable_well_keyed Ho)
                (reachable_well_keyed Hm)) as [Hb _].
    + intros t c Hin. split; [exact (Co t c Hin)|exact (IHo t c Hin)].
    + exact IHm.
    + discriminate.
    + exact Hb.
Qed.

(** ** Bounds on the score *)

Lemma sum_squares_le_square cs :
  (forall t c, In (t, c) cs -> 0 <= count c) ->
  0 <= sum_squares cs <= sum_counts cs * sum_counts cs.
Proof.
  unfold sum_squares, sum_counts.
  induction cs as [|[t c] cs IH]; intros H; [simpl; lia|].
  rewrite !total_cons.
  assert (Hc : 0 <= count c) by (apply (H t); now left).
  assert (Hcs : forall t0 c0, In (t0, c0) cs -> 0 <= count c0)
    by (intros t0 c0 Hin; apply (H t0); now right).
  pose proof (IH Hcs) as [I1 I2].
  pose proof (total_nonneg count cs Hcs) as Hn. nia.
Qed.

Lemma exact_ratio_bounds s2 s :
  0 < s -> 0 <= s2 <= s * s ->
  (0 <= inject_Z s2 / inject_Z s)%Q /\
  (inject_Z s2 / inject_Z s <= inject_Z s)%Q.
Proof.
  intros Hs [H1 H2].
  assert (Hq : (0 < inject_Z s)%Q)
    by (change (inject_Z 0 < inject_Z s)%Q; rewrite <- Zlt_Qlt; exact Hs).
  split.
  - apply Qle_shift_div_l; [exact Hq|]. rewrite Qmult_0_l.
    change (inject_Z 0 <= inject_Z s2)%Q. rewrite <- Zle_Qle. exact H1.
  - apply Qle_shift_div_r; [exact Hq|]. rewrite <- inject_Z_mult.
    rewrite <- Zle_Qle. exact H2.
Qed.

Lemma likelihood_bounds n :
  consistent n -> bounded n ->
  (forall t c, In (t, c) (children n) -> 1 <= count c) ->
  (0 <= likelihood n)%Q /\ (likelihood n <= inject_Z (count n))%Q /\
  forall t c, In (t, c) (children n) -> count c <= count n.
Proof.
  intros [H1 H2 H3 H4 _] Hb Hch. unfold bounded in Hb.
  assert (Hnn : forall t c, In (t, c) (children n) -> 0 <= count c)
    by (intros t c Hin; specialize (Hch t c Hin); lia).
  assert (Hmem : forall t c, In (t, c) (children n) -> count c <= count n).
  { intros t c Hin. pose proof (total_ge_member count _ _ _ Hnn Hin) as Hle.
    unfold sum_counts in H3. lia. }
  split; [|split; [|exact Hmem]].
  - unfold likelihood.
    destruct (Z.eqb_spec (sum_ft n) 0) as [E|E].
    + change (inject_Z 0 <= inject_Z (count n))%Q. rewrite <- Zle_Qle. lia.
    + pose proof (total_nonneg count _ Hnn) as Hs.
      fold (sum_counts (children n)) in Hs.
      pose proof (sum_squares_le_square _ Hnn) as Hsq.
      rewrite <- H3, <- H4 in *.
      destruct (@exact_ratio_bounds (sum_ft2 n) (sum_ft n)) as [R1 R2];
        [lia|lia|].
      assert (R3 : (inject_Z (sum_ft n) <= inject_Z (count n))%Q)
        by (rewrite <- Zle_Qle; exact Hb).
      apply (Qplus_le_l _ _ (inject_Z (sum_ft2 n) / inject_Z (sum_ft n))).
      ring_simplify. eapply Qle_trans; [exact R2|exact R3].
  - unfold likelihood.
    destruct (Z.eqb_spec (sum_ft n) 0) as [E|E]; [apply Qle_refl|].
    pose proof (total_nonneg count _ Hnn) as Hs.
    fold (sum_counts (children n)) in Hs.
    pose proof (sum_squares_le_square _ Hnn) as Hsq.
    rewrite <- H3, <- H4 in *.
    destruct (@exact_ratio_bounds (sum_ft2 n) (sum_ft n)) as [R1 R2];
      [lia|lia|].
    apply (Qplus_le_l _ _ (inject_Z (sum_ft2 n) / inject_Z (sum_ft n))).
    ring_simplify.
    rewrite <- (Qplus_0_r (inject_Z (count n))) at 1.
    apply Qplus_le_r. exact R1.
Qed.

Lemma likelihood_bounds_everywhere n :
  ForallNodes consistent n -> ForallNodes bounded n ->
  ForallNodes
    (fun n => sum_ft n <= count n /\
              (forall t c, In (t, c) (children n) -> count c <= count n) /\
              (0 <= likelihood n)%Q /\
              (likelihood n <= inject_Z (count n))%Q /\
              (sum_ft n = 0 -> score n = Int (count n))) n.
Proof.
  induction n as [n IH] using node_children_ind. intros Hc Hb.
  inversion Hc as [? C1 C2]; subst. inversion Hb as [? B1 B2]; subst.
  constructor.
  - destruct (@likelihood_bounds n C1 B1) as (L1 & L2 & L3).
    + intros t c Hin. exact (cons_count (ForallNodes_here (C2 t c Hin))).
    + split; [exact B1|]. split; [exact L3|]. split; [exact L1|].
      split; [exact L2|exact (cons_leaf C1)].
  - intros t c Hin. apply (IH t c Hin); [exact (C2 t c Hin)|exact (B2 t c Hin)].
Qed.

(** C10 (amended).  In the trie of a reachable miner every node [n] below
    the root has [sum_ft n] at most [count n], no child with a larger count
    than its own, and a value of [count - sum_ft2/sum_ft] in exact arithmetic
    ([likelihood n], [count] when [sum_ft] is zero) between [0] and [count n];
    while [sum_ft n] is zero the stored [score n] is the integer [count n].
    The stored score of a node with children is a floating-point running
    value, and nothing bounds it by these. *)
Theorem C10_exact_likelihood_between_zero_and_count {S} `{WatchfulStemmer S}
    `{CandidateExtractor} (m : AdeftMiner S) :
  reachable m ->
  ForallNonRoot
    (fun n => sum_ft n <= count n /\
              (forall t c, In (t, c) (children n) -> count c <= count n) /\
              (0 <= likelihood n)%Q /\
              (likelihood n <= inject_Z (count n))%Q /\
              (sum_ft n = 0 -> score n = Int (count n)))
    (_internal_trie m).
Proof.
  intros Hr t c Hin. apply likelihood_bounds_everywhere.
  - exact (reachable_consistent Hr t c Hin).
  - exact (reachable_bounded Hr t c Hin).
Qed.

Lemma C10_witness :
  reachable two_shard_miner /\
  ForallNonRoot
    (fun n => sum_ft n <= count n /\
              (forall t c, In (t, c) (children n) -> count c <= count n) /\
              (0 <= likelihood n)%Q /\
              (likelihood n <= inject_Z (count n))%Q /\
              (sum_ft n = 0 -> score n = Int (count n)))
    (_internal_trie two_shard_miner).
Proof.
  assert (Hr : reachable two_shard_miner).
  { unfold two_shard_miner.
    exact (reachable_update
             (reachable_process_texts _ (reachable_new _ _))
             (reachable_process_texts _ (reachable_new _ _))). }
  split; [exact Hr|exact (C10_exact_likelihood_between_zero_and_count Hr)].
Defined.

Lemma reachable_self_merged (k : nat) (m : AdeftMiner unit) :
  reachable m -> reachable (self_merged k m).
Proof.
  intros Hm. induction k as [|k IH]; [exact Hm|].
  cbn [self_merged]. exact (reachable_update IH IH).
Qed.

(** C10, counterexample.  A miner that has seen the candidate [b a] once is
    merged with itself 53 times, which brings the count of node [a] to
    [2^53] and its score to the float [0.0]; two more merges with the
    one-candidate miner bring the count to [2^53 + 2] while the additions of
    1 to the score are absorbed, and the score ends at [-2.0], below zero,
    although [count - sum_ft2/sum_ft] is [0] for the node. *)
Lemma C10_counterexample :
  reachable overflow_miner /\
  exists n,
    In ("a"%string, n) (children (_internal_trie overflow_miner)) /\
    count n = 2 ^ 53 + 2 /\
    score n = Float (S754_finite true 4503599627370496 (-51)) /\
    num_value (score n) = Finite (inject_Z (-4503599627370496) * (1 # 2 ^ 51)) /\
    num_ltb (score n) (Int 0) = true /\
    num_leb (Int 0) (score n) = false /\
    (likelihood n == 0)%Q.
Proof.
  split.
  - unfold overflow_miner.
    assert (H1 : reachable one_candidate_miner)
      by exact (reachable_process_texts _ (reachable_new _ _)).
    exact (reachable_update
             (reachable_update (reachable_self_merged 53 H1) H1) H1).
  - destruct (child (_internal_trie overflow_miner) "a"%string) as [n|] eqn:E;
      [|vm_compute in E; discriminate].
    exists n. split; [apply child_In; exact E|].
    vm_compute in E. injection E as <-.
    vm_compute. repeat split; reflexivity.
Qed.

(** ** Merging against mining in sequence *)

(** C2.  Mining [corpus_A] then [corpus_B] in one miner, and mining them in
    two miners that are then merged, give tries with the same statistics at
    every node, but [get_longforms] returns [b a] and [c a] for the first and
    only [b a] for the second: the node [b], taken over from the copy of the
    other trie, still has its parent there, so [_propagate_scores] does not
    climb from it to [a], and [a] is scored without its best descendant. *)
Theorem C2_merge_changes_extracted_longforms (np_exp : number -> number) :
  same_statistics (_internal_trie sequential_miner)
    (_internal_trie merged_miner) = true /\
  returned_texts
    (snd (get_longforms np_exp sequential_miner default_cutoff (Int 4) Auto
            false default_abs_decay_param))
  = Ok ["b a"; "c a"]%string /\
  returned_texts
    (snd (get_longforms np_exp merged_miner default_cutoff (Int 4) Auto
            false default_abs_decay_param))
  = Ok ["b a"]%string.
Proof. repeat split; vm_compute; reflexivity. Qed.

(** ** Round trip of the trie through its dictionary *)

Lemma node_to_dict_eq n :
  node_to_dict n = to_dict_over node_to_dict (children n) [].
Proof. destruct n as [lf ss c s s2 sc cs a ba bd pe]. reflexivity. Qed.

Lemma dict_get_notin (V : Type) (d : list (token * V)) k :
  ~ In k (map fst d) -> Dict.get string_dec d k = None.
Proof.
  intros Hnin. destruct (Dict.get string_dec d k) as [v|] eqn:E; [|reflexivity].
  exfalso. apply Hnin. apply DictFacts.get_In in E.
  apply in_map_iff. exists (k, v). now split.
Qed.

Lemma NoDup_app_cons_r (A : Type) (l : list A) x r :
  NoDup (l ++ x :: r) -> ~ In x l /\ NoDup ((l ++ [x]) ++ r).
Proof.
  intros H. split.
  - intros Hin. apply NoDup_remove_2 in H. apply H. apply in_or_app. now left.
  - now rewrite <- app_assoc.
Qed.

Lemma to_dict_over_ok rec cs : forall out,
  (forall t c, In (t, c) cs ->
     stats_set c = true /\ rec c = Ok (dict_of c)) ->
  NoDup (map fst out ++ map fst cs) ->
  to_dict_over rec cs out =
  Ok (out ++ map (fun tc =>
                    (fst tc,
                     Entry (count (snd tc)) (score (snd tc)) (sum_ft (snd tc))
                           (sum_ft2 (snd tc)) (longform (snd tc))
                           (dict_of (snd tc)))) cs).
Proof.
  induction cs as [|[t c] cs IH]; intros out Hcs Hnd.
  - simpl. now rewrite app_nil_r.
  - cbn [to_dict_over].
    destruct (Hcs t c (or_introl eq_refl)) as [Hs Hr].
    unfold read_stat. rewrite Hs, Hr. cbn [bind].
    simpl in Hnd. apply NoDup_app_cons_r in Hnd. destruct Hnd as [Hnin Hnd].
    rewrite (DictFacts.set_absent string_dec _ _ _ (dict_get_notin _ _ Hnin)).
    rewrite IH.
    + now rewrite <- app_assoc.
    + intros t0 c0 Hin. apply (Hcs t0 c0). now right.
    + now rewrite map_app.
Qed.

Lemma node_to_dict_ok n :
  well_keyed n -> ForallNonRoot (fun m => stats_set m = true) n ->
  node_to_dict n = Ok (dict_of n).
Proof.
  induction n as [n IH] using node_children_ind. intros Hk Hs.
  rewrite node_to_dict_eq.
  rewrite to_dict_over_ok.
  - destruct n as [lf ss c s s2 sc cs a ba bd pe]. reflexivity.
  - intros t c Hin. split; [exact (ForallNodes_here (Hs t c Hin))|].
    apply (IH t c Hin).
    + exact (@ForallNodes_child _ _ _ _ Hk Hin).
    + intros t0 c0 Hin0. exact (@ForallNodes_child _ _ _ _ (Hs t c Hin) Hin0).
  - exact (ForallNodes_here Hk).
Qed.

Lemma fold_set_child (V : Type) (g : V -> node) (es : list (token * V)) :
  forall n,
  NoDup (map fst (children n) ++ map fst es) ->
  fold_left (fun n kv => set_child n (fst kv) (g (snd kv))) es n =
  set_children n (children n ++ map (fun kv => (fst kv, g (snd kv))) es).
Proof.
  induction es as [|[k v] es IH]; intros n Hnd.
  - simpl. rewrite app_nil_r. now rewrite set_children_children.
  - cbn [fold_left fst snd]. simpl in Hnd.
    apply NoDup_app_cons_r in Hnd. destruct Hnd as [Hnin Hnd].
    assert (E : set_child n k (g v) =
                set_children n (children n ++ [(k, g v)])).
    { unfold set_child.
      now rewrite (DictFacts.set_absent string_dec _ _ _
                     (dict_get_notin _ _ Hnin)). }
    rewrite E, IH.
    + cbn [set_children children map fst snd]. now rewrite <- app_assoc.
    + cbn [set_children children]. now rewrite map_app.
Qed.

Lemma longform_new_node lf : longform (new_node lf) = lf.
Proof. now destruct lf. Qed.

Lemma children_new_node lf : children (new_node lf) = [].
Proof. now destruct lf. Qed.

Lemma _load_trie_helper_eq e :
  _load_trie_helper e =
  fold_left (fun n kv => set_child n (fst kv) (_load_trie_helper (snd kv)))
    (e_children e)
    (Node (e_longform e) true (e_count e) (e_sum_ft e) (e_sum_ft2 e)
          (e_score e) [] (Int 0) (Int (-1)) (Int (-1)) false).
Proof. destruct e as [c sc s s2 lf es]. destruct lf; reflexivity. Qed.

Lemma dict_of_eq n :
  dict_of n =
  map (fun tc =>
         (fst tc,
          Entry (count (snd tc)) (score (snd tc)) (sum_ft (snd tc))
                (sum_ft2 (snd tc)) (longform (snd tc)) (dict_of (snd tc))))
      (children n).
Proof. destruct n as [lf ss c s s2 sc cs a ba bd pe]. reflexivity. Qed.

Lemma Forall2_map_left (A B : Type) (R : B -> A -> Prop) (f : A -> B) l :
  (forall x, In x l -> R (f x) x) -> Forall2 R (map f l) l.
Proof.
  induction l as [|x l IH]; intros H; simpl; constructor.
  - apply H. now left.
  - apply IH. intros y Hy. apply H. now right.
Qed.

(** What [load_trie] and [_load_trie_helper] build from the dictionary of the
    children of [n]. *)
Lemma loaded_children n n0 :
  well_keyed n -> children n0 = [] ->
  (forall t c, In (t, c) (children n) ->
     same_slots
       (_load_trie_helper
          (Entry (count c) (score c) (sum_ft c) (sum_ft2 c) (longform c)
                 (dict_of c))) c) ->
  let loaded :=
    fold_left (fun m kv => set_child m (fst kv) (_load_trie_helper (snd kv)))
      (dict_of n) n0 in
  loaded = set_children n0 (children loaded) /\
  Forall2 (fun x y => fst x = fst y /\ same_slots (snd x) (snd y))
    (children loaded) (children n).
Proof.
  intros Hk H0 Hch loaded. subst loaded.
  rewrite dict_of_eq, fold_set_child.
  - rewrite H0. cbn [set_children children app]. split; [reflexivity|].
    rewrite map_map. apply Forall2_map_left.
    intros [t c] Hin. cbn [fst snd]. split; [reflexivity|].
    exact (Hch t c Hin).
  - rewrite H0, map_map. simpl. exact (ForallNodes_here Hk).
Qed.

Lemma load_helper_same c :
  well_keyed c ->
  same_slots
    (_load_trie_helper
       (Entry (count c) (score c) (sum_ft c) (sum_ft2 c) (longform c)
              (dict_of c))) c.
Proof.
  induction c as [c IH] using node_children_ind. intros Hk.
  rewrite _load_trie_helper_eq. cbn [e_children e_longform e_count e_sum_ft
                                      e_sum_ft2 e_score].
  destruct (@loaded_children c
              (Node (longform c) true (count c) (sum_ft c) (sum_ft2 c)
                    (score c) [] (Int 0) (Int (-1)) (Int (-1)) false) Hk eq_refl) as [E HF].
  - intros t c0 Hin. apply (IH t c0 Hin).
    exact (@ForallNodes_child _ _ _ _ Hk Hin).
  - cbv zeta in E, HF. rewrite E. constructor; try reflexivity. exact HF.
Qed.

(** The trie loaded from the dictionary of a trie: the fresh root, with
    children that agree with the original ones on every slot written. *)
Lemma load_trie_same n :
  well_keyed n ->
  load_trie (dict_of n) =
    set_children (new_node []) (children (load_trie (dict_of n))) /\
  Forall2 (fun x y => fst x = fst y /\ same_slots (snd x) (snd y))
    (children (load_trie (dict_of n))) (children n).
Proof.
  intros Hk. unfold load_trie.
  apply (@loaded_children n (new_node []) Hk eq_refl).
  intros t c Hin. apply load_helper_same.
  exact (@ForallNodes_child _ _ _ _ Hk Hin).
Qed.

(** ** [literal_eval] reads back what [str] writes *)

Lemma read_all_app s1 : forall r s2,
  read_all r (s1 ++ s2) =
  match read_all r s1 with
  | Some r' => read_all r' s2
  | None => None
  end.
Proof.
  induction s1 as [|c s1 IH]; intros r s2; simpl; [reflexivity|].
  destruct (read_char r c); [apply IH|reflexivity].
Qed.

Lemma escape_char_read q c items cur ac :
  q = squote \/ q = dquote ->
  read_all (InString q items cur ac) (escape_char q c) =
  Some (InString q items (push cur c) ac).
Proof.
  intros [-> | ->]; destruct c as [[] [] [] [] [] [] [] []];
    vm_compute; reflexivity.
Qed.

Lemma push_app cur c (s : string) :
  (push cur c ++ s = cur ++ String c s)%string.
Proof.
  unfold push. induction cur as [|a cur IH]; simpl; [reflexivity|].
  now rewrite IH.
Qed.

Lemma string_app_assoc (a b c : string) :
  ((a ++ b) ++ c = a ++ (b ++ c))%string.
Proof. induction a as [|x a IH]; simpl; [reflexivity|now rewrite IH]. Qed.

Lemma string_app_empty (a : string) : (a ++ EmptyString = a)%string.
Proof. induction a as [|x a IH]; simpl; [reflexivity|now rewrite IH]. Qed.

Lemma escape_all_read q s : forall items cur ac rest,
  q = squote \/ q = dquote ->
  read_all (InString q items cur ac)
    (escape_all q s ++ String q rest)%string =
  read_all (AfterItem (items ++ [(cur ++ s)%string]) ac) rest.
Proof.
  induction s as [|c s IH]; intros items cur ac rest Hq.
  - simpl. rewrite Ascii.eqb_refl. now rewrite string_app_empty.
  - cbn [escape_all]. rewrite string_app_assoc, read_all_app.
    rewrite (escape_char_read c items cur ac Hq).
    rewrite (IH items (push cur c) ac rest Hq). now rewrite push_app.
Qed.

Lemma quote_for_cases s : quote_for s = squote \/ quote_for s = dquote.
Proof. unfold quote_for. destruct (_ && _); auto. Qed.

Lemma py_repr_read s items ac rest :
  read_all (BeforeItem items ac) (py_repr s ++ rest)%string =
  read_all (AfterItem (items ++ [s]) ac) rest.
Proof.
  unfold py_repr.
  assert (E : read_char (BeforeItem items ac) (quote_for s) =
              Some (InString (quote_for s) items "" ac))
    by (destruct (quote_for_cases s) as [-> | ->]; reflexivity).
  cbn [append read_all]. rewrite E.
  rewrite string_app_assoc. cbn [append].
  now rewrite (escape_all_read s items "" ac rest (quote_for_cases s)).
Qed.

Lemma concat_read xs : forall x items ac rest,
  read_all (BeforeItem items ac)
    (String.concat ", " (map py_repr (x :: xs)) ++ rest)%string =
  read_all (AfterItem (items ++ x :: xs)
              (match xs with [] => ac | _ :: _ => true end)) rest.
Proof.
  induction xs as [|y ys IH]; intros x items ac rest.
  - simpl. apply py_repr_read.
  - change (String.concat ", " (map py_repr (x :: y :: ys)))
      with (py_repr x ++ ", " ++
            String.concat ", " (map py_repr (y :: ys)))%string.
    rewrite !string_app_assoc, py_repr_read.
    cbn [append read_all read_char]. simpl Ascii.eqb. cbn iota.
    assert (E : forall it b, read_char (BeforeItem it b) " " =
                             Some (BeforeItem it b)) by reflexivity.
    rewrite E, IH. rewrite <- app_assoc. cbn [app].
    now destruct ys.
Qed.

(** [literal_eval(str(t)) == t] for every tuple [t] of strings. *)
Lemma literal_eval_str t : literal_eval (py_str_tuple t) = Some t.
Proof.
  unfold literal_eval. destruct t as [|x [|y ys]].
  - reflexivity.
  - unfold py_str_tuple. cbn [append read_all read_char]. simpl Ascii.eqb.
    cbn iota. rewrite py_repr_read. reflexivity.
  - unfold py_str_tuple. cbn [append read_all read_char]. simpl Ascii.eqb.
    cbn iota. rewrite concat_read. reflexivity.
Qed.

Lemma py_str_tuple_inj t1 t2 : py_str_tuple t1 = py_str_tuple t2 -> t1 = t2.
Proof.
  intros E. pose proof (literal_eval_str t1) as H1.
  rewrite E, literal_eval_str in H1. congruence.
Qed.

(** ** The candidates dictionary holds a key once *)

Lemma dict_set_keys_nodup (K V : Type)
    (K_eq_dec : forall a b : K, {a = b} + {a <> b}) (d : list (K * V)) k v :
  NoDup (map fst d) -> NoDup (map fst (Dict.set K_eq_dec d k v)).
Proof.
  intros Hk.
  change (NoDup (Dict.keys (Dict.set K_eq_dec d k v))).
  destruct (Dict.get K_eq_dec d k) as [v0|] eqn:Eg.
  - rewrite DictFacts.keys_set_present; [exact Hk|congruence].
  - rewrite (DictFacts.set_absent K_eq_dec _ _ v Eg).
    unfold Dict.keys. rewrite map_app. simpl.
    apply Permutation_NoDup with (l := k :: map fst d).
    + apply Permutation_cons_append.
    + constructor; [|exact Hk]. now apply DictFacts.get_None_notin in Eg.
Qed.

Lemma lf_set_nodup d k v :
  NoDup (map fst d) -> NoDup (map fst (lf_set d k v)).
Proof. apply dict_set_keys_nodup. Qed.

Lemma _add_walk_lfs_nodup tokens : forall is_root current lfs,
  NoDup (map fst lfs) ->
  NoDup (map fst (snd (_add_walk is_root current tokens lfs))).
Proof.
  induction tokens as [|tok rest IH]; intros is_root current lfs Hl;
    [exact Hl|].
  cbn [_add_walk]. cbv zeta.
  destruct (child current tok) as [c|].
  - match goal with |- context [_add_walk false ?a rest ?l] =>
      pose proof (IH false a l) as Hw;
      destruct (_add_walk false a rest l) as [c2 lfs3] end.
    cbn [snd] in *. apply Hw.
    destruct is_root; repeat apply lf_set_nodup; exact Hl.
  - match goal with |- context [_add_walk false ?a rest ?l] =>
      pose proof (IH false a l) as Hw;
      destruct (_add_walk false a rest l) as [c2 lfs3] end.
    cbn [snd] in *. apply Hw.
    destruct is_root; repeat apply lf_set_nodup; exact Hl.
Qed.

Lemma merge_children_lfs_nodup rchildren : forall p lnode lfs queue,
  NoDup (map fst lfs) ->
  NoDup (map fst (snd (fst (merge_children p lnode rchildren lfs queue)))).
Proof.
  induction rchildren as [|[tok ch] rest IH]; intros p lnode lfs queue Hl;
    [exact Hl|].
  cbn [merge_children]. cbv zeta.
  destruct (child lnode tok) as [current|]; apply IH;
    destruct (is_nil p); repeat apply lf_set_nodup; exact Hl.
Qed.

Lemma update_loop_lfs_nodup fuel : forall root lfs queue,
  NoDup (map fst lfs) ->
  NoDup (map fst (snd (fst (update_loop fuel root lfs queue)))).
Proof.
  induction fuel as [|fuel IH]; intros root lfs queue Hl; [exact Hl|].
  cbn [update_loop].
  destruct queue as [|[p rnode] queue']; [exact Hl|].
  destruct (get_at root p) as [lnode|]; [|exact Hl].
  pose proof (@merge_children_lfs_nodup (children rnode) p lnode lfs queue' Hl)
    as Hm.
  destruct (merge_children p lnode (children rnode) lfs queue')
    as [[lnode' lfs'] queue''].
  apply IH. exact Hm.
Qed.

Lemma reachable_lfs_nodup {S} `{WatchfulStemmer S} `{CandidateExtractor}
    (m : AdeftMiner S) :
  reachable m -> NoDup (map fst (_longforms m)).
Proof.
  induction 1 as [sf w|m texts _ IH|m other _ IHm _ IHo].
  - constructor.
  - unfold process_texts. cbn [_longforms].
    revert m IH. induction texts as [|text ts IHt]; intros m IH; [exact IH|].
    cbn [process_each]. apply IHt.
    generalize (get_candidate_fragments text (shortform m) (window m)).
    intros fragments. revert m IH.
    induction fragments as [|f fs IHf]; intros m IH; [exact IH|].
    cbn [add_fragments]. apply IHf. destruct (is_empty_string f); [exact IH|].
    unfold _add. destruct (stem_all (_stemmer m) (get_candidate f)) as [stems st].
    pose proof (@_add_walk_lfs_nodup (rev stems) true (_internal_trie m)
                  (_longforms m) IH) as Hw.
    destruct (_add_walk true (_internal_trie m) (rev stems) (_longforms m)).
    exact Hw.
  - unfold update.
    assert (Hu : NoDup (map fst (longforms_update (_longforms m)
                                   (_longforms other)))).
    { unfold longforms_update.
      generalize (filter (fun kv => negb (Dict.mem tokens_eq_dec (_longforms m)
                                            (fst kv))) (_longforms other)).
      intros l. revert IHm. generalize (_longforms m).
      induction l as [|kv l IHl]; intros d Hd; [exact Hd|].
      cbn [fold_left]. apply IHl. now apply lf_set_nodup. }
    match goal with |- context [update_loop ?f ?r ?l ?q] =>
      pose proof (@update_loop_lfs_nodup f r l q Hu) as Hl;
      destruct (update_loop f r l q) as [[root lfs'] q'] end.
    exact Hl.
Qed.

(** ** Round trip of the candidates dictionary *)

Lemma longforms_to_dict_fold (lfs : candidates) :
  forall out : list (string * number),
  NoDup (map fst out ++ map (fun kv => py_str_tuple (fst kv)) lfs) ->
  fold_left (fun d kv => Dict.set string_dec d (py_str_tuple (fst kv)) (snd kv))
    lfs out =
  out ++ map (fun kv => (py_str_tuple (fst kv), snd kv)) lfs.
Proof.
  induction lfs as [|[k v] lfs IH]; intros out Hnd.
  - simpl. now rewrite app_nil_r.
  - cbn [fold_left fst snd map]. simpl in Hnd.
    apply NoDup_app_cons_r in Hnd. destruct Hnd as [Hnin Hnd].
    rewrite (DictFacts.set_absent string_dec _ _ _ (dict_get_notin _ _ Hnin)).
    rewrite IH; [now rewrite <- app_assoc|now rewrite map_app].
Qed.

Lemma longforms_from_dict_fold (lfs : candidates) :
  forall out : candidates,
  NoDup (map fst out ++ map fst lfs) ->
  longforms_from_dict
    (map (fun kv => (py_str_tuple (fst kv), snd kv)) lfs) out =
  Ok (out ++ lfs).
Proof.
  induction lfs as [|[k v] lfs IH]; intros out Hnd.
  - simpl. now rewrite app_nil_r.
  - cbn [map longforms_from_dict fst snd]. rewrite literal_eval_str.
    simpl in Hnd. apply NoDup_app_cons_r in Hnd. destruct Hnd as [Hnin Hnd].
    assert (Eg : Dict.get tokens_eq_dec out k = None).
    { destruct (Dict.get tokens_eq_dec out k) as [v0|] eqn:E; [|reflexivity].
      exfalso. apply Hnin. apply DictFacts.get_In in E.
      apply in_map_iff. exists (k, v0). now split. }
    unfold lf_set. rewrite (DictFacts.set_absent tokens_eq_dec _ _ v Eg).
    rewrite IH; [now rewrite <- app_assoc|now rewrite map_app].
Qed.

Lemma NoDup_map_injective (A B : Type) (f : A -> B) (l : list A) :
  (forall a b, f a = f b -> a = b) -> NoDup l -> NoDup (map f l).
Proof.
  intros Hinj. induction 1 as [|x l Hnin _ IH]; simpl; constructor;
    [|exact IH].
  intros Hin. apply in_map_iff in Hin. destruct Hin as (y & E & Hy).
  apply Hinj in E. subst y. contradiction.
Qed.

Lemma longforms_round_trip lfs :
  NoDup (map fst lfs) ->
  longforms_from_dict (longforms_to_dict lfs) [] = Ok lfs.
Proof.
  intros Hnd. unfold longforms_to_dict.
  rewrite longforms_to_dict_fold.
  - simpl. now rewrite longforms_from_dict_fold.
  - simpl. rewrite <- (map_map fst py_str_tuple).
    apply NoDup_map_injective; [|exact Hnd].
    intros a b. apply py_str_tuple_inj.
Qed.

(** ** The root keeps the slots it was built with *)

Lemma _add_walk_root tokens current lfs :
  set_children (fst (_add_walk true current tokens lfs)) [] =
  set_children current [].
Proof.
  destruct tokens as [|tok rest]; [reflexivity|].
  cbn [_add_walk]. cbv zeta.
  destruct (child current tok) as [c|];
    match goal with |- context [_add_walk false ?a rest ?l] =>
      destruct (_add_walk false a rest l) as [c2 lfs3] end; reflexivity.
Qed.

Lemma merge_trie_root rchildren : forall lnode,
  set_children (fst (merge_trie true lnode rchildren)) [] =
  set_children lnode [].
Proof.
  induction rchildren as [|[tok ch] rest IH]; intros lnode; [reflexivity|].
  cbn [merge_trie]. cbv zeta.
  destruct (child lnode tok) as [current|].
  - match goal with |- context [merge_trie true ?l rest] =>
      specialize (IH l); destruct (merge_trie true l rest) as [l' next] end.
    cbn [fst] in *. rewrite IH. reflexivity.
  - rewrite IH. reflexivity.
Qed.

Lemma put_at_root_slots p root x :
  (is_nil p = true -> set_children x [] = set_children root []) ->
  set_children (put_at root p x) [] = set_children root [].
Proof.
  destruct p as [|t p]; simpl; intros H; [now apply H|].
  now destruct (child root t).
Qed.

Lemma update_loop_root fuel : forall root lfs queue,
  set_children (fst (fst (update_loop fuel root lfs queue))) [] =
  set_children root [].
Proof.
  induction fuel as [|fuel IH]; intros root lfs queue; [reflexivity|].
  cbn [update_loop].
  destruct queue as [|[p rnode] queue']; [reflexivity|].
  destruct (get_at root p) as [lnode|] eqn:Eg; [|reflexivity].
  destruct (merge_children_trie (children rnode) p lnode lfs queue')
    as [E _].
  destruct (merge_children p lnode (children rnode) lfs queue')
    as [[lnode' lfs'] queue''].
  cbn [fst] in E. rewrite IH. apply put_at_root_slots.
  intros Hnil. destruct p; [|discriminate]. simpl in Eg, E.
  injection Eg as <-. rewrite E. apply merge_trie_root.
Qed.

Lemma reachable_fresh_root {S} `{WatchfulStemmer S} `{CandidateExtractor}
    (m : AdeftMiner S) :
  reachable m -> fresh_root (_internal_trie m).
Proof.
  unfold fresh_root.
  induction 1 as [sf w|m texts _ IH|m other _ IHm _ IHo].
  - reflexivity.
  - unfold process_texts. cbn [_internal_trie].
    revert m IH. induction texts as [|text ts IHt]; intros m IH; [exact IH|].
    cbn [process_each]. apply IHt.
    generalize (get_candidate_fragments text (shortform m) (window m)).
    intros fragments. revert m IH.
    induction fragments as [|f fs IHf]; intros m IH; [exact IH|].
    cbn [add_fragments]. apply IHf. destruct (is_empty_string f); [exact IH|].
    unfold _add. destruct (stem_all (_stemmer m) (get_candidate f)) as [stems st].
    pose proof (_add_walk_root (rev stems) (_internal_trie m) (_longforms m))
      as Hw.
    destruct (_add_walk true (_internal_trie m) (rev stems) (_longforms m)).
    cbn [fst _internal_trie] in *. now rewrite Hw.
  - unfold update.
    match goal with |- context [update_loop ?f ?r ?l ?q] =>
      pose proof (update_loop_root f r l q) as Hu;
      destruct (update_loop f r l q) as [[root lfs'] q'] end.
    cbn [fst _internal_trie] in *. now rewrite Hu.
Qed.

(** C6.  The dictionary of a reachable miner loads, without error, into a
    miner with the same shortform, window and candidates dictionary, and with
    a trie that agrees with the original on [longform], [count], [score],
    [sum_ft], [sum_ft2] and children at every node; [literal_eval] reads each
    key written by [str] back into the tuple it was. *)
Theorem C6_serialization_round_trip {S} `{WatchfulStemmer S}
    `{CandidateExtractor} (m : AdeftMiner S) :
  reachable m ->
  exists d m',
    to_dict m = Ok d /\
    load_adeft_miner_from_dict d = Ok m' /\
    shortform m' = shortform m /\
    window m' = window m /\
    same_slots (_internal_trie m') (_internal_trie m) /\
    _longforms m' = _longforms m /\
    forall key value, In (key, value) (_longforms m) ->
      literal_eval (py_str_tuple key) = Some key.
Proof.
  intros Hr.
  pose proof (reachable_well_keyed Hr) as Hk.
  assert (Hs : ForallNonRoot (fun n => stats_set n = true) (_internal_trie m)).
  { intros t c Hin. eapply ForallNodes_impl;
      [|exact (reachable_consistent Hr t c Hin)].
    intros n Hn. exact (cons_set Hn). }
  pose proof (node_to_dict_ok Hk Hs) as Ed.
  pose proof (@longforms_round_trip _ (reachable_lfs_nodup Hr)) as El.
  destruct (@load_trie_same _ Hk) as [Er HF].
  pose proof (reachable_fresh_root Hr) as Hroot. unfold fresh_root in Hroot.
  eexists. eexists. split.
  - unfold to_dict. rewrite Ed. reflexivity.
  - split.
    + unfold load_adeft_miner_from_dict. cbn [d_longforms d_internal_trie
        d_shortform d_window d_stemmer]. rewrite El. reflexivity.
    + cbn [shortform window _internal_trie _longforms new_miner].
      split; [reflexivity|]. split; [reflexivity|].
      split; [|split; [reflexivity|intros; apply literal_eval_str]].
      destruct (_internal_trie m) as [lf ss c s s2 sc cs a ba bd pe].
      cbn [set_children new_node] in Hroot. injection Hroot as -> -> -> -> -> ->.
      rewrite Er. constructor; try reflexivity. exact HF.
Qed.

Lemma C6_witness :
  reachable two_shard_miner /\
  exists d m',
    to_dict two_shard_miner = Ok d /\
    load_adeft_miner_from_dict d = Ok m' /\
    shortform m' = shortform two_shard_miner /\
    window m' = window two_shard_miner /\
    same_slots (_internal_trie m') (_internal_trie two_shard_miner) /\
    _longforms m' = _longforms two_shard_miner /\
    forall key value, In (key, value) (_longforms two_shard_miner) ->
      literal_eval (py_str_tuple key) = Some key.
Proof.
  assert (Hr : reachable two_shard_miner).
  { unfold two_shard_miner.
    exact (reachable_update
             (reachable_process_texts _ (reachable_new _ _))
             (reachable_process_texts _ (reachable_new _ _))). }
  split; [exact Hr|exact (C6_serialization_round_trip Hr)].
Defined.

(** ** Counts add up under merge *)





(** ** Further properties of the mining core *)

(** X2.  Ingestion and merge never write the slots of the propagation and
    alignment passes: in a miner built by construction, [process_texts] and
    [update] every node still holds [best_ancestor_score = -1],
    [best_descendent_score = -1] and [alignment_score = 0]. *)
Theorem X2_ingestion_and_merge_leave_pass_slots {S} `{WatchfulStemmer S}
    `{CandidateExtractor} (m : AdeftMiner S) :
  reachable m ->
  ForallNodes (fun n => best_ancestor_score n = Int (-1) /\
                        best_descendent_score n = Int (-1) /\
                        alignment_score n = Int 0) (_internal_trie m).
Proof. exact (@reachable_untouched _ _ _ m). Qed.

Lemma X2_witness :
  reachable two_shard_miner /\
  ForallNodes (fun n => best_ancestor_score n = Int (-1) /\
                        best_descendent_score n = Int (-1) /\
                        alignment_score n = Int 0)
    (_internal_trie two_shard_miner).
Proof.
  assert (Hr : reachable two_shard_miner).
  { unfold two_shard_miner.
    exact (reachable_update
             (reachable_process_texts _ (reachable_new _ _))
             (reachable_process_texts _ (reachable_new _ _))). }
  split; [exact Hr|exact (X2_ingestion_and_merge_leave_pass_slots Hr)].
Defined.

(** X3.  Whatever the score function, [_get_longform_helper] never returns
    an empty list: when it returns, it returns at least one triple. *)
Theorem X3_helper_returns_a_candidate
    (score_func : node -> result (number * Z)) (is_root : bool) (n : node)
    (r : list entry) :
  _get_longform_helper score_func is_root n = Ok r -> r <> [].
Proof.
  intros H. rewrite _get_longform_helper_eq in H.
  destruct (children n) as [|tc cs].
  - apply bind_Ok in H. destruct H as (v & _ & H). congruence.
  - apply bind_Ok in H. destruct H as ([|e res] & _ & H).
    + apply bind_Ok in H. destruct H as (v & _ & H). congruence.
    + congruence.
Qed.

Lemma X3_witness :
  _get_longform_helper (fun n => Ok (score n, count n)) false
    (new_node ["a"%string])
  = Ok [(["a"%string], Int 1, 1)] /\
  [(["a"%string], Int 1, 1)] <> @nil entry.
Proof.
  assert (E : _get_longform_helper (fun n => Ok (score n, count n)) false
                (new_node ["a"%string])
              = Ok [(["a"%string], Int 1, 1)]) by reflexivity.
  split; [exact E|exact (X3_helper_returns_a_candidate _ _ _ E)].
Defined.

(** X4.  [get_longforms] leaves [_scores_propagated] set, leaves
    [_alignment_scores_computed] set when [use_abs] is true and as it was
    otherwise, and changes neither the shortform, the window nor the
    candidates dictionary of the miner. *)
Theorem X4_get_longforms_sets_flags {S} `{WatchfulStemmer S}
    {scorer : AlignmentBasedScorer} (np_exp : number -> number)
    (self : AdeftMiner S) (cutoff smoothing_param : number)
    (max_length : max_length_arg) (use_abs : bool) (abs_decay_param : number) :
  let after := fst (get_longforms np_exp self cutoff smoothing_param
                      max_length use_abs abs_decay_param) in
  _scores_propagated after = true /\
  _alignment_scores_computed after
  = (use_abs || _alignment_scores_computed self) /\
  shortform after = shortform self /\
  window after = window self /\
  _longforms after = _longforms self.
Proof.
  unfold get_longforms. cbn [fst].
  destruct self as [sf trie lfs st w computed propagated].
  cbn [_scores_propagated _alignment_scores_computed shortform window
       _longforms _internal_trie _stemmer].
  destruct propagated, use_abs, computed; repeat split; reflexivity.
Qed.

(** X5.  The root of a miner built by construction, ingestion and merge
    keeps the slots [__init__] gave it: [score = -1] and no statistics. *)
Theorem X5_root_keeps_initial_slots {S} `{WatchfulStemmer S}
    `{CandidateExtractor} (m : AdeftMiner S) :
  reachable m ->
  set_children (_internal_trie m) [] = new_node [] /\
  score (_internal_trie m) = Int (-1) /\
  stats_set (_internal_trie m) = false /\
  longform (_internal_trie m) = [].
Proof.
  intros Hr. pose proof (reachable_fresh_root Hr) as E. unfold fresh_root in E.
  split; [exact E|].
  destruct (_internal_trie m) as [lf ss c s s2 sc cs a ba bd pe].
  cbn [set_children new_node longform stats_set count sum_ft sum_ft2 score
       alignment_score best_ancestor_score best_descendent_score
       parent_elsewhere] in *.
  injection E as -> -> -> -> -> ->. repeat split; reflexivity.
Qed.

Lemma X5_witness :
  reachable two_shard_miner /\
  set_children (_internal_trie two_shard_miner) [] = new_node [] /\
  score (_internal_trie two_shard_miner) = Int (-1) /\
  stats_set (_internal_trie two_shard_miner) = false /\
  longform (_internal_trie two_shard_miner) = [].
Proof.
  assert (Hr : reachable two_shard_miner).
  { unfold two_shard_miner.
    exact (reachable_update
             (reachable_process_texts _ (reachable_new _ _))
             (reachable_process_texts _ (reachable_new _ _))). }
  split; [exact Hr|exact (X5_root_keeps_initial_slots Hr)].
Defined.

(** X6.  In a miner built by construction, ingestion and merge every node
    below the root has its statistics assigned and a count of at least 1,
    and a node holds each token once among its children. *)
Theorem X6_nodes_below_root_are_counted {S} `{WatchfulStemmer S}
    `{CandidateExtractor} (m : AdeftMiner S) :
  reachable m ->
  ForallNonRoot (fun n => stats_set n = true /\ 1 <= count n)
    (_internal_trie m) /\
  ForallNodes (fun n => NoDup (map fst (children n))) (_internal_trie m).
Proof.
  intros Hr. split.
  - intros t c Hin. eapply ForallNodes_impl;
      [|exact (reachable_consistent Hr t c Hin)].
    intros n Hn. split; [exact (cons_set Hn)|exact (cons_count Hn)].
  - exact (reachable_well_keyed Hr).
Qed.

Lemma X6_witness :
  reachable two_shard_miner /\
  ForallNonRoot (fun n => stats_set n = true /\ 1 <= count n)
    (_internal_trie two_shard_miner) /\
  ForallNodes (fun n => NoDup (map fst (children n)))
    (_internal_trie two_shard_miner).
Proof.
  assert (Hr : reachable two_shard_miner).
  { unfold two_shard_miner.
    exact (reachable_update
             (reachable_process_texts _ (reachable_new _ _))
             (reachable_process_texts _ (reachable_new _ _))). }
  split; [exact Hr|exact (X6_nodes_below_root_are_counted Hr)].
Defined.

(** X7.  [str] maps different tuples of strings to different keys, so the
    dictionary comprehension of [to_dict] merges no two candidates, and the
    candidates dictionary of a reachable miner survives [to_dict] followed by
    the comprehension of [load_adeft_miner_from_dict] unchanged. *)
Theorem X7_str_keys_do_not_collide {S} `{WatchfulStemmer S}
    `{CandidateExtractor} (m : AdeftMiner S) :
  (forall t1 t2 : list string,
     py_str_tuple t1 = py_str_tuple t2 -> t1 = t2) /\
  (reachable m ->
   longforms_from_dict (longforms_to_dict (_longforms m)) []
   = Ok (_longforms m)).
Proof.
  split; [exact py_str_tuple_inj|].
  intros Hr. exact (@longforms_round_trip _ (reachable_lfs_nodup Hr)).
Qed.

Lemma X7_witness :
  reachable two_shard_miner /\
  longforms_from_dict (longforms_to_dict (_longforms two_shard_miner)) []
  = Ok (_longforms two_shard_miner).
Proof.
  assert (Hr : reachable two_shard_miner).
  { unfold two_shard_miner.
    exact (reachable_update
             (reachable_process_texts _ (reachable_new _ _))
             (reachable_process_texts _ (reachable_new _ _))). }
  split; [exact Hr|exact (proj2 (X7_str_keys_do_not_collide two_shard_miner) Hr)].
Defined.
